(** * Server core of cube.js: connection broker, compiler cache,
      background-context migration and refresh-timer start-up.

    Shallow embedding of the class [CubejsServerCore].  JavaScript runs
    one job at a time, so every function below is one run-to-completion
    segment of the source: a call runs up to its first [await], and
    [resume] runs a suspended async body from one [await] to the next. *)

From stdpp Require Import gmap strings list pretty.

Local Open Scope string_scope.
Local Open Scope list_scope.
Local Open Scope nat_scope.

(** ** Promises, drivers and the two acquisition slots *)

Module Broker.

Definition error := string.

(** Identity of a promise object: its allocation index. *)
Definition pid := nat.

(** What a call into a collaborator does: raise synchronously, or hand
    back a value / promise that later settles one way or the other. *)
Inductive call_result (A : Type) : Type :=
| Throws (e : error)
| Resolves (a : A)
| Rejects (e : error).
Arguments Throws {A} e.
Arguments Resolves {A} a.
Arguments Rejects {A} e.

(** [BaseDriver] as the broker sees it.  [setLogger] is optional
    ([None]: the property is absent); when present it returns or throws. *)
Record BaseDriver : Type := mkDriver {
  drv_id : nat;
  setLogger : option (option error);
  testConnection : call_result unit;
  release : call_result unit
}.

(** [driverPromise[dataSource]] and [externalPreAggregationsDriverPromise]. *)
Inductive slot : Type :=
| DataSource (dataSource : string)
| ExternalPreAggregations.

Inductive event : Type :=
| EvFactory (sl : slot)
| EvSetLogger (d : nat)
| EvTestConnection (d : nat)
| EvRelease (d : nat).

Inductive settled : Type :=
| Fulfilled (d : BaseDriver)
| Rejected (e : error).

(** The [await] at which the inner async body is parked, with the
    outcome the awaited value will deliver. *)
Inductive frame : Type :=
| AwaitFactory (r : error + option BaseDriver)
| AwaitTest (driver : BaseDriver) (r : error + unit)
| AwaitRelease (e : error) (r : error + unit).

Inductive promise : Type :=
| Pending (sl : slot) (k : frame)
| Settled (o : settled).

Record state : Type := mkState {
  driverPromise : gmap string (option pid);
  externalPreAggregationsDriverPromise : option pid;
  promises : list promise;
  log : list event
}.

Definition init : state :=
  {| driverPromise := ∅;
     externalPreAggregationsDriverPromise := None;
     promises := [];
     log := [] |}.

(** The message of the TypeError raised by [driver.setLogger] on [null]. *)
Definition TypeError : error := "TypeError: Cannot read property 'setLogger' of null".

(** Truthiness test [if (driverPromise[dataSource])]: an absent key and
    a key holding [null] are both falsy. *)
Definition read_slot (sl : slot) (s : state) : option pid :=
  match sl with
  | DataSource ds => default None (driverPromise s !! ds)
  | ExternalPreAggregations => externalPreAggregationsDriverPromise s
  end.

Definition write_slot (sl : slot) (v : option pid) (s : state) : state :=
  match sl with
  | DataSource ds =>
      {| driverPromise := <[ds := v]> (driverPromise s);
         externalPreAggregationsDriverPromise := externalPreAggregationsDriverPromise s;
         promises := promises s;
         log := log s |}
  | ExternalPreAggregations =>
      {| driverPromise := driverPromise s;
         externalPreAggregationsDriverPromise := v;
         promises := promises s;
         log := log s |}
  end.

Definition emit (ev : event) (s : state) : state :=
  {| driverPromise := driverPromise s;
     externalPreAggregationsDriverPromise := externalPreAggregationsDriverPromise s;
     promises := promises s;
     log := log s ++ [ev] |}.

Definition set_promise (p : pid) (v : promise) (s : state) : state :=
  {| driverPromise := driverPromise s;
     externalPreAggregationsDriverPromise := externalPreAggregationsDriverPromise s;
     promises := <[p := v]> (promises s);
     log := log s |}.

(** Allocation of the promise of a freshly called async function. *)
Definition alloc (v : promise) (s : state) : state :=
  {| driverPromise := driverPromise s;
     externalPreAggregationsDriverPromise := externalPreAggregationsDriverPromise s;
     promises := promises s ++ [v];
     log := log s |}.

(** [catch (e) { slot = null; if (driver) { await driver.release(); } throw e; }] *)
Definition on_catch (sl : slot) (p : pid) (driver : option BaseDriver)
    (e : error) (s : state) : state :=
  let s := write_slot sl None s in
  match driver with
  | None => set_promise p (Settled (Rejected e)) s
  | Some d =>
      let s := emit (EvRelease (drv_id d)) s in
      match release d with
      | Throws e' => set_promise p (Settled (Rejected e')) s
      | Resolves _ => set_promise p (Pending sl (AwaitRelease e (inr tt))) s
      | Rejects e' => set_promise p (Pending sl (AwaitRelease e (inl e'))) s
      end
  end.

(** The slot-reading prefix and the start of the inner async body, up
    to [await driverFactory(...)], followed by the assignment of the
    returned promise to the slot.  [factory] is what the factory does
    if this call invokes it.  The promise of the inner call is allocated
    when the call starts; its state is filled in when the body reaches
    the [await] (or, if the factory throws, the end of the [catch]),
    and only then is it assigned to the slot. *)
Definition acquire (sl : slot) (factory : call_result (option BaseDriver))
    (s : state) : pid * state :=
  match read_slot sl s with
  | Some p => (p, s)
  | None =>
      let p := length (promises s) in
      let s := alloc (Pending sl (AwaitFactory (inr None))) s in
      let s := emit (EvFactory sl) s in
      let s :=
        match factory with
        | Throws e => on_catch sl p None e s
        | Resolves d => set_promise p (Pending sl (AwaitFactory (inr d))) s
        | Rejects e => set_promise p (Pending sl (AwaitFactory (inl e))) s
        end in
      (p, write_slot sl (Some p) s)
  end.

(** [getDriver: async (dataSource = 'default') => ...].  The outer async
    function resolves its own result with the promise computed here, so
    a caller's outcome is the outcome of that promise. *)
Definition getDriver (dataSource : option string)
    (factory : call_result (option BaseDriver)) (s : state) : pid * state :=
  acquire (DataSource (default "default" dataSource)) factory s.

(** [getExternalDriverFactory: async () => ...] *)
Definition getExternalDriverFactory
    (factory : call_result (option BaseDriver)) (s : state) : pid * state :=
  acquire ExternalPreAggregations factory s.

(** [await driver.testConnection()] inside the [try]. *)
Definition call_testConnection (sl : slot) (p : pid) (d : BaseDriver)
    (s : state) : state :=
  let s := emit (EvTestConnection (drv_id d)) s in
  match testConnection d with
  | Throws e => on_catch sl p (Some d) e s
  | Resolves _ => set_promise p (Pending sl (AwaitTest d (inr tt))) s
  | Rejects e => set_promise p (Pending sl (AwaitTest d (inl e))) s
  end.

(** Continuation of the inner async body of promise [p] from the
    [await] it is parked at to the next one (or to its end). *)
Definition resume (p : pid) (s : state) : state :=
  match promises s !! p with
  | Some (Pending sl (AwaitFactory (inl e))) => on_catch sl p None e s
  | Some (Pending sl (AwaitFactory (inr None))) => on_catch sl p None TypeError s
  | Some (Pending sl (AwaitFactory (inr (Some d)))) =>
      match setLogger d with
      | None => call_testConnection sl p d s
      | Some None => call_testConnection sl p d (emit (EvSetLogger (drv_id d)) s)
      | Some (Some e) => on_catch sl p (Some d) e (emit (EvSetLogger (drv_id d)) s)
      end
  | Some (Pending sl (AwaitTest d (inr _))) => set_promise p (Settled (Fulfilled d)) s
  | Some (Pending sl (AwaitTest d (inl e))) => on_catch sl p (Some d) e s
  | Some (Pending sl (AwaitRelease e (inr _))) => set_promise p (Settled (Rejected e)) s
  | Some (Pending sl (AwaitRelease _ (inl e'))) => set_promise p (Settled (Rejected e')) s
  | Some (Settled _) | None => s
  end.

(** Every [await] of one attempt delivered: factory, testConnection, release. *)
Definition complete (p : pid) (s : state) : state :=
  resume p (resume p (resume p s)).

(** Several callers of the same acquisition function, one after the
    other within one job (no [await] is delivered in between); [fs]
    gives, for each call, what the factory would do if invoked. *)
Fixpoint callAll (call : call_result (option BaseDriver) → state → pid * state)
    (fs : list (call_result (option BaseDriver))) (s : state) : list pid * state :=
  match fs with
  | [] => ([], s)
  | f :: fs' =>
      let '(p, s1) := call f s in
      let '(ps, s2) := callAll call fs' s1 in
      (p :: ps, s2)
  end.

Definition outcome (p : pid) (s : state) : option settled :=
  match promises s !! p with
  | Some (Settled o) => Some o
  | _ => None
  end.

Definition is_factory (ev : event) : bool :=
  match ev with EvFactory _ => true | _ => false end.
Definition is_test (ev : event) : bool :=
  match ev with EvTestConnection _ => true | _ => false end.
Definition is_release (ev : event) : bool :=
  match ev with EvRelease _ => true | _ => false end.

Definition count (f : event → bool) (s : state) : nat :=
  length (filter (λ ev, f ev = true) (log s)).

(** The state in which [on_catch] leaves the promise of the attempt, and
    the calls it makes on the driver. *)
Definition catch_cell (sl : slot) (driver : option BaseDriver) (e : error) : promise :=
  match driver with
  | None => Settled (Rejected e)
  | Some d =>
      match release d with
      | Throws e' => Settled (Rejected e')
      | Resolves _ => Pending sl (AwaitRelease e (inr tt))
      | Rejects e' => Pending sl (AwaitRelease e (inl e'))
      end
  end.

Definition catch_events (driver : option BaseDriver) : list event :=
  match driver with
  | None => []
  | Some d => [EvRelease (drv_id d)]
  end.

(** Likewise for [call_testConnection]. *)
Definition test_cell (sl : slot) (d : BaseDriver) : promise :=
  match testConnection d with
  | Throws e => catch_cell sl (Some d) e
  | Resolves _ => Pending sl (AwaitTest d (inr tt))
  | Rejects e => Pending sl (AwaitTest d (inl e))
  end.

Definition test_events (d : BaseDriver) : list event :=
  EvTestConnection (drv_id d) ::
  match testConnection d with
  | Throws _ => [EvRelease (drv_id d)]
  | _ => []
  end.

(** The error, if any, with which an attempt fails once the factory has
    delivered the handle [d]: [setLogger] throws, or [testConnection]
    throws or rejects. *)
Definition failure_with_handle (d : BaseDriver) : option error :=
  match setLogger d with
  | Some (Some e) => Some e
  | _ =>
      match testConnection d with
      | Throws e | Rejects e => Some e
      | Resolves _ => None
      end
  end.

(** The error raised by [await driver.release()], if any. *)
Definition release_error (d : BaseDriver) : option error :=
  match release d with
  | Throws e | Rejects e => Some e
  | Resolves _ => None
  end.

(** The promise of an attempt right after the call that started it. *)
Definition start_cell (sl : slot) (factory : call_result (option BaseDriver)) : promise :=
  match factory with
  | Throws e => Settled (Rejected e)
  | Resolves d => Pending sl (AwaitFactory (inr d))
  | Rejects e => Pending sl (AwaitFactory (inl e))
  end.

(** One [resume] seen from the promise it runs: its next state, the
    calls made on the way, and whether the [catch] block was entered. *)
Definition next_cell (c : promise) : promise :=
  match c with
  | Pending sl (AwaitFactory (inl e)) => catch_cell sl None e
  | Pending sl (AwaitFactory (inr None)) => catch_cell sl None TypeError
  | Pending sl (AwaitFactory (inr (Some d))) =>
      match setLogger d with
      | Some (Some e) => catch_cell sl (Some d) e
      | _ => test_cell sl d
      end
  | Pending sl (AwaitTest d (inr _)) => Settled (Fulfilled d)
  | Pending sl (AwaitTest d (inl e)) => catch_cell sl (Some d) e
  | Pending sl (AwaitRelease e (inr _)) => Settled (Rejected e)
  | Pending sl (AwaitRelease _ (inl e')) => Settled (Rejected e')
  | Settled o => Settled o
  end.

Definition next_events (c : promise) : list event :=
  match c with
  | Pending sl (AwaitFactory (inr (Some d))) =>
      match setLogger d with
      | Some (Some e) => [EvSetLogger (drv_id d); EvRelease (drv_id d)]
      | Some None => EvSetLogger (drv_id d) :: test_events d
      | None => test_events d
      end
  | Pending sl (AwaitTest d (inl e)) => [EvRelease (drv_id d)]
  | _ => []
  end.

Definition enters_catch (c : promise) : option slot :=
  match c with
  | Pending sl (AwaitFactory (inl _)) => Some sl
  | Pending sl (AwaitFactory (inr None)) => Some sl
  | Pending sl (AwaitFactory (inr (Some d))) =>
      match setLogger d with
      | Some (Some _) => Some sl
      | _ => match testConnection d with Throws _ => Some sl | _ => None end
      end
  | Pending sl (AwaitTest d (inl _)) => Some sl
  | _ => None
  end.

#[global] Instance slot_eq_dec : EqDecision slot.
Proof. solve_decision. Defined.

(** What one attempt amounts to, read off the factory's behaviour: the
    number of [testConnection] calls and the settled state of the
    promise. *)
Definition expected_tests (factory : call_result (option BaseDriver)) : nat :=
  match factory with
  | Resolves (Some d) =>
      match setLogger d with
      | Some (Some _) => 0
      | _ => 1
      end
  | _ => 0
  end.

Definition attempt_outcome (factory : call_result (option BaseDriver)) : settled :=
  match factory with
  | Throws e | Rejects e => Rejected e
  | Resolves None => Rejected TypeError
  | Resolves (Some d) =>
      match failure_with_handle d with
      | None => Fulfilled d
      | Some e => Rejected (default e (release_error d))
      end
  end.

(** The slot, if any, whose [catch] block runs within three resumes. *)
Definition chain_catch (c : promise) : option slot :=
  match enters_catch c with
  | Some sl => Some sl
  | None =>
      match enters_catch (next_cell c) with
      | Some sl => Some sl
      | None => enters_catch (next_cell (next_cell c))
      end
  end.

(** The calls made within three resumes. *)
Definition chain_events (c : promise) : list event :=
  next_events c ++ next_events (next_cell c)
    ++ next_events (next_cell (next_cell c)).

End Broker.

(** ** The compiler cache *)

Module LRU.

(** Modelled from the spec: [LRUCache] of the [lru-cache] package, which
    is not part of the sources.  Section 4.1 of the specification gives
    its contract: a fixed maximum entry count, eviction of the entry
    least recently read or written, an optional max-age after which an
    entry is a miss on [get] even if not yet swept, an optional refresh
    of the age on access, a sweep of expired entries and a reset.
    Entries are kept most recently used first; [stamp] is the time the
    entry was stored (or last refreshed). *)
Record entry (V : Type) : Type := mkEntry {
  key : string;
  val : V;
  stamp : Z
}.
Arguments mkEntry {V} _ _ _.
Arguments key {V} _.
Arguments val {V} _.
Arguments stamp {V} _.

(** Modelled from the spec: the cache with its three settings. *)
Record t (V : Type) : Type := mkCache {
  max : nat;
  maxAge : option Z;
  updateAgeOnGet : bool;
  entries : list (entry V)
}.
Arguments mkCache {V} _ _ _ _.
Arguments max {V} _.
Arguments maxAge {V} _.
Arguments updateAgeOnGet {V} _.
Arguments entries {V} _.

Section Ops.
Context {V : Type}.

(** Modelled from the spec: the same cache with other entries. *)
Definition with_entries (c : t V) (l : list (entry V)) : t V :=
  mkCache (max c) (maxAge c) (updateAgeOnGet c) l.

(** Modelled from the spec: an entry older than max-age is expired. *)
Definition stale (c : t V) (now : Z) (e : entry V) : bool :=
  match maxAge c with
  | Some age => bool_decide (age < now - stamp e)%Z
  | None => false
  end.

(** Modelled from the spec: the entry of a key, and the entries of
    the other keys. *)
Definition find (k : string) (l : list (entry V)) : option (entry V) :=
  head (filter (λ e, key e = k) l).

(** Modelled from the spec: see [find]. *)
Definition remove (k : string) (l : list (entry V)) : list (entry V) :=
  filter (λ e, key e ≠ k) l.

(** Modelled from the spec: [get]; a hit moves the entry to the front
    and, with keep-alive on read, refreshes its age. *)
Definition get (k : string) (now : Z) (c : t V) : option V * t V :=
  match find k (entries c) with
  | None => (None, c)
  | Some e =>
      if stale c now e then (None, c)
      else
        let e' := mkEntry k (val e) (if updateAgeOnGet c then now else stamp e) in
        (Some (val e), with_entries c (e' :: remove k (entries c)))
  end.

(** Modelled from the spec: [set]; the stored entry becomes the most
    recently used one and entries beyond the capacity are evicted from
    the least recently used end. *)
Definition set (k : string) (v : V) (now : Z) (c : t V) : t V :=
  with_entries c (take (max c) (mkEntry k v now :: remove k (entries c))).

(** Modelled from the spec: the sweep removes every expired entry. *)
Definition prune (now : Z) (c : t V) : t V :=
  with_entries c (filter (λ e, stale c now e = false) (entries c)).

(** Modelled from the spec: [reset] drops all entries. *)
Definition reset (c : t V) : t V := with_entries c [].

End Ops.

End LRU.

(** ** The coordinator: compiler cache and orchestrator registry *)

Module Core.

(** The part of [CreateOptions] read by the code below.  The two
    numbers are non-negative integers; [None] is [undefined]. *)
Record options : Type := mkOptions {
  compilerCacheSize : option N;
  maxCompilerCacheKeepAlive : option N;
  updateCompilerCacheKeepAlive : option bool;
  has_schemaVersion : bool
}.

(** Truthiness of an optional number: [undefined] and 0 are falsy. *)
Definition truthy_num (n : option N) : option N :=
  match n with
  | Some z => if bool_decide (z = 0%N) then None else Some z
  | None => None
  end.

(** [max: this.options.compilerCacheSize || 250] *)
Definition cache_max (o : options) : N :=
  default 250%N (truthy_num (compilerCacheSize o)).

(** [new LRUCache({ max, maxAge, updateAgeOnGet })] in the constructor.
    A max-age of 0 means no expiry for the cache. *)
Definition new_compilerCache {V} (o : options) : LRU.t V :=
  LRU.mkCache (N.to_nat (cache_max o))
    (Z.of_N <$> truthy_num (maxCompilerCacheKeepAlive o))
    (default false (updateCompilerCacheKeepAlive o))
    [].

(** [if (maxCompilerCacheKeepAlive) maxCompilerCacheKeep =
    setInterval(() => compilerCache.prune(), maxCompilerCacheKeepAlive)]:
    the period of the sweep timer, if one is started. *)
Definition new_maxCompilerCacheKeep (o : options) : option N :=
  truthy_num (maxCompilerCacheKeepAlive o).

Section Coordinator.
Context {Ctx : Type}.
Variable contextToAppId : Ctx → string.
Variable contextToOrchestratorId : Ctx → string.

(** A [CompilerApi] object: the context it was compiled for and its
    mutable [schemaVersion] field (the context captured by the closure,
    or [undefined]). *)
Record CompilerApi : Type := mkCompilerApi {
  compileContext : Ctx;
  schemaVersion : option Ctx
}.

(** Modelled from the spec: [OrchestratorStorage] is not part of the
    sources; it is the registry of section 4.3, a map from key to
    instance with [has], [get], [set] and [clear]. *)
Abbreviation OrchestratorStorage := (gmap string nat).

(** The coordinator.  Objects are identified by their index in the heap
    they live in: [compilers] holds the [CompilerApi] objects and
    [orchestrators] the closure state of each [OrchestratorApi]. *)
Record state : Type := mkState {
  opts : options;
  compilerCache : LRU.t nat;
  compilers : list CompilerApi;
  orchestratorStorage : OrchestratorStorage;
  orchestrators : list Broker.state
}.

Definition create (o : options) : state :=
  {| opts := o;
     compilerCache := new_compilerCache o;
     compilers := [];
     orchestratorStorage := ∅;
     orchestrators := [] |}.

(** [getCompilerApi(context)]; [now] is the clock read by the cache. *)
Definition getCompilerApi (context : Ctx) (now : Z) (s : state) : nat * state :=
  let appId := contextToAppId context in
  let '(hit, cache) := LRU.get appId now (compilerCache s) in
  let currentSchemaVersion := if has_schemaVersion (opts s) then Some context else None in
  let '(compilerApi, cache, heap) :=
    match hit with
    | Some c => (c, cache, compilers s)
    | None =>
        let c := length (compilers s) in
        (c, LRU.set appId c now cache,
         compilers s ++ [mkCompilerApi context currentSchemaVersion])
    end in
  (compilerApi,
   {| opts := opts s;
      compilerCache := cache;
      compilers := alter (λ a, mkCompilerApi (compileContext a) currentSchemaVersion)
                     compilerApi heap;
      orchestratorStorage := orchestratorStorage s;
      orchestrators := orchestrators s |}).

(** [getOrchestratorApi(context)]: the registered instance, or a new
    one with empty acquisition slots. *)
Definition getOrchestratorApi (context : Ctx) (s : state) : nat * state :=
  let orchestratorId := contextToOrchestratorId context in
  match orchestratorStorage s !! orchestratorId with
  | Some api => (api, s)
  | None =>
      let api := length (orchestrators s) in
      (api,
       {| opts := opts s;
          compilerCache := compilerCache s;
          compilers := compilers s;
          orchestratorStorage := <[orchestratorId := api]> (orchestratorStorage s);
          orchestrators := orchestrators s ++ [Broker.init] |})
  end.

(** The periodic sweep: [this.compilerCache.prune()]. *)
Definition sweep (now : Z) (s : state) : state :=
  {| opts := opts s;
     compilerCache := LRU.prune now (compilerCache s);
     compilers := compilers s;
     orchestratorStorage := orchestratorStorage s;
     orchestrators := orchestrators s |}.

(** Every cached identity denotes an object of the heap. *)
Definition heap_ok (s : state) : Prop :=
  ∀ e, e ∈ LRU.entries (compilerCache s) → LRU.val e < length (compilers s).

(** What the coordinator undergoes in the course of time: requests for
    the two kinds of instances, and firings of the sweep timer. *)
Inductive action : Type :=
| GetCompilerApi (context : Ctx) (now : Z)
| GetOrchestratorApi (context : Ctx)
| Sweep (now : Z).

Definition perform (a : action) (s : state) : state :=
  match a with
  | GetCompilerApi context now => (getCompilerApi context now s).2
  | GetOrchestratorApi context => (getOrchestratorApi context s).2
  | Sweep now => sweep now s
  end.

Definition performAll (acts : list action) (s : state) : state :=
  foldl (λ s a, perform a s) s acts.

(** The tenants whose compiler is requested in [acts], and the times at
    which the sweep timer fires in [acts]. *)
Definition requested (acts : list action) : list string :=
  omap (λ a, match a with
             | GetCompilerApi context _ => Some (contextToAppId context)
             | _ => None
             end) acts.

Definition sweeps (acts : list action) : list Z :=
  omap (λ a, match a with Sweep now => Some now | _ => None end) acts.

(** Whether the cached entry of tenant [k], if there is one, is expired
    at time [now]. *)
Definition expired (k : string) (now : Z) (s : state) : bool :=
  match LRU.find k (LRU.entries (compilerCache s)) with
  | Some e => LRU.stale (compilerCache s) now e
  | None => false
  end.

(** The cache of [s] has the settings that the constructor reads from
    the options [o], and holds no more entries than its capacity. *)
Definition configured (o : options) (s : state) : Prop :=
  LRU.max (compilerCache s) = N.to_nat (cache_max o)
  ∧ LRU.maxAge (compilerCache s) = (Z.of_N <$> truthy_num (maxCompilerCacheKeepAlive o))
  ∧ LRU.updateAgeOnGet (compilerCache s) = default false (updateCompilerCacheKeepAlive o)
  ∧ length (LRU.entries (compilerCache s)) ≤ LRU.max (compilerCache s).

(** The entry of tenant [k] is cached with object [a] and stamp [st],
    behind entries of distinct tenants among [K] only. *)
Definition cached_behind (K : list string) (k : string) (a : nat) (st : Z)
    (s : state) : Prop :=
  ∃ l1 e l2,
    LRU.entries (compilerCache s) = l1 ++ e :: l2
    ∧ LRU.key e = k ∧ LRU.val e = a ∧ LRU.stamp e = st
    ∧ NoDup (LRU.key <$> l1)
    ∧ ∀ x, x ∈ l1 → LRU.key x ∈ K.

End Coordinator.

Arguments CompilerApi Ctx : clear implicits.
Arguments state Ctx : clear implicits.
Arguments action Ctx : clear implicits.

End Core.

(** ** Background contexts *)

Module Context.

(** JavaScript values as far as truthiness tells them apart; objects
    are opaque and numbers are integers. *)
Inductive value : Type :=
| VUndefined
| VNull
| VBool (b : bool)
| VNum (n : Z)
| VStr (s : string)
| VObj (id : nat).

Definition truthy (v : value) : bool :=
  match v with
  | VUndefined | VNull => false
  | VBool b => b
  | VNum n => negb (bool_decide (n = 0%Z))
  | VStr s => negb (bool_decide (s = ""))
  | VObj _ => true
  end.

(** [UserBackgroundContext]; an absent property reads as [VUndefined].
    [others] are the remaining own properties, which the object spread
    copies. *)
Record UserBackgroundContext : Type := mkContext {
  authInfo : value;
  securityContext : value;
  others : list (string * value)
}.

(** A logger call: the event name and its parameters. *)
Definition log_entry : Type := string * list (string * string).

Record state : Type := mkState {
  warningBackgroundContextShow : bool;
  logged : list log_entry
}.

(** [protected warningBackgroundContextShow: boolean = false;] *)
Definition init : state :=
  {| warningBackgroundContextShow := false; logged := [] |}.

Definition auth_info_deprecation : log_entry :=
  ("auth_info_deprecation",
   [("warning",
     "authInfo was renamed to securityContext, please migrate: " +:+
     "https://github.com/cube-js/cube.js/blob/master/DEPRECATION.md#checkauthmiddleware")]).

Definition migrateBackgroundContext (ctx : option UserBackgroundContext)
    (s : state) : option UserBackgroundContext * state :=
  match ctx with
  | None => (None, s)
  | Some ctx =>
      if truthy (securityContext ctx) && negb (truthy (authInfo ctx)) then
        (Some {| authInfo := securityContext ctx;
                 securityContext := securityContext ctx;
                 others := others ctx |}, s)
      else if truthy (authInfo ctx) then
        (Some {| authInfo := authInfo ctx;
                 securityContext := authInfo ctx;
                 others := others ctx |},
         if warningBackgroundContextShow s then
           {| warningBackgroundContextShow := false;
              logged := logged s ++ [auth_info_deprecation] |}
         else s)
      else (None, s)
  end.

(** A sequence of calls on one instance, with the results in order. *)
Fixpoint migrateAll (ctxs : list (option UserBackgroundContext)) (s : state)
    : list (option UserBackgroundContext) * state :=
  match ctxs with
  | [] => ([], s)
  | c :: cs =>
      let '(r, s1) := migrateBackgroundContext c s in
      let '(rs, s2) := migrateAll cs s1 in
      (r :: rs, s2)
  end.

Definition emissions (s : state) : nat :=
  length (filter (λ e : log_entry, e.1 = "auth_info_deprecation") (logged s)).

End Context.

(** ** The scheduled-refresh timer *)

Module Timer.

Definition log_entry : Type := string * list (string * string).

(** The [dbType] option: a database name or a function of the context. *)
Inductive DbType : Type :=
| DbName (name : string)
| DbFn (id : nat).

Definition truthy_dbType (d : option DbType) : bool :=
  match d with
  | Some (DbName n) => negb (bool_decide (n = ""))
  | Some (DbFn _) => true
  | None => false
  end.

(** An integer-valued JavaScript number, as [parseInt(n, 10)] sees it:
    the number is first printed.  Below 1e21 in magnitude it is printed
    in plain decimal digits, which [parseInt] reads back unchanged:
    [Plain].  From 1e21 on it is printed in exponent notation
    ("1e+21", "-4.2e+30"), of which [parseInt] reads the sign and the
    one digit before the point or the exponent: [Huge] records these
    two. *)
Record plain_int : Type := mkPlain {
  plain : Z;
  plain_ok : bool_decide (Z.abs plain < 10 ^ 21)%Z = true
}.

Inductive number : Type :=
| Plain (n : plain_int)
| Huge (negative : bool) (digit : positive).

(** [parseInt(n, 10)] *)
Definition parseInt (n : number) : Z :=
  match n with
  | Plain n => plain n
  | Huge false d => Z.pos d
  | Huge true d => Z.neg d
  end.

(** A number is falsy when it is [0]. *)
Definition truthy_number (n : number) : bool :=
  match n with
  | Plain n => negb (bool_decide (plain n = 0%Z))
  | Huge _ _ => true
  end.

(** The [scheduledRefreshTimer] option: [number | boolean]. *)
Inductive timer_option : Type :=
| TimerNumber (n : number)
| TimerBool (b : bool).

(** The number [n] written in the configuration, for [n] below 1e21. *)
Definition seconds (n : Z) (H : bool_decide (Z.abs n < 10 ^ 21)%Z = true)
    : timer_option :=
  TimerNumber (Plain (mkPlain n H)).

Section WithFormat.
(** [formatDuration] of [@cubejs-backend/shared], not part of the sources. *)
Variable formatDuration : Z → string.

(** The argument handed to [createCancelableInterval]: the period and
    the two callbacks, each of which makes one logger call. *)
Record CancelableInterval : Type := mkInterval {
  interval : Z;
  onDuplicatedExecution : nat → log_entry;
  onDuplicatedStateResolved : nat → Z → log_entry
}.

Record state : Type := mkState {
  options_dbType : option DbType;
  env_CUBEJS_DB_TYPE : option string;
  options_scheduledRefreshTimer : option timer_option;
  scheduledRefreshTimerInterval : option CancelableInterval;
  intervals_created : nat
}.

(** [options.dbType || process.env.CUBEJS_DB_TYPE] *)
Definition dbType_or_env (s : state) : option DbType :=
  if truthy_dbType (options_dbType s) then options_dbType s
  else DbName <$> env_CUBEJS_DB_TYPE s.

Definition isReadyForQueryProcessing (s : state) : bool :=
  match dbType_or_env s with
  | Some _ => true
  | None => false
  end.

(** Returns [number | false]; [None] is [false]. *)
Definition detectScheduledRefreshTimer (t : option timer_option) : option Z :=
  match t with
  | Some (TimerNumber n) =>
      if truthy_number n then Some (parseInt n * 1000)%Z else None
  | Some (TimerBool true) => Some 30000%Z
  | Some (TimerBool false) | None => None
  end.

Definition new_interval (scheduledRefreshTimer : Z) : CancelableInterval :=
  {| interval := scheduledRefreshTimer;
     onDuplicatedExecution := λ intervalId,
       ("Refresh Scheduler Interval Error",
        [("error", "Previous interval #" +:+ pretty intervalId +:+
                   " was not finished with " +:+ pretty scheduledRefreshTimer +:+
                   " interval")]);
     onDuplicatedStateResolved := λ intervalId elapsed,
       ("Refresh Scheduler Long Execution",
        [("warning", "Interval #" +:+ pretty intervalId +:+
                     " finished after " +:+ formatDuration elapsed)]) |}.

Definition not_ready : string :=
  "Instance is not ready for query processing, refresh scheduler is disabled".
Definition no_timer : string :=
  "Instance configured without scheduler refresh timer, refresh scheduler is disabled".

Definition startScheduledRefreshTimer (s : state) : (bool * option string) * state :=
  if negb (isReadyForQueryProcessing s) then ((false, Some not_ready), s)
  else
    match scheduledRefreshTimerInterval s with
    | Some _ => ((true, None), s)
    | None =>
        match detectScheduledRefreshTimer (options_scheduledRefreshTimer s) with
        | Some scheduledRefreshTimer =>
            if bool_decide (scheduledRefreshTimer = 0%Z)
            then ((false, Some no_timer), s)
            else
              ((true, None),
               {| options_dbType := options_dbType s;
                  env_CUBEJS_DB_TYPE := env_CUBEJS_DB_TYPE s;
                  options_scheduledRefreshTimer := options_scheduledRefreshTimer s;
                  scheduledRefreshTimerInterval := Some (new_interval scheduledRefreshTimer);
                  intervals_created := S (intervals_created s) |})
        | None => ((false, Some no_timer), s)
        end
    end.

(** [this.options.dbType = this.options.dbType || process.env.CUBEJS_DB_TYPE] *)
Definition reloadEnvVariables (s : state) : state :=
  {| options_dbType := dbType_or_env s;
     env_CUBEJS_DB_TYPE := env_CUBEJS_DB_TYPE s;
     options_scheduledRefreshTimer := options_scheduledRefreshTimer s;
     scheduledRefreshTimerInterval := scheduledRefreshTimerInterval s;
     intervals_created := intervals_created s |}.

(** The constructor: the field starts as [null] and
    [startScheduledRefreshTimer] is called once. *)
Definition construct (dbType : option DbType) (env : option string)
    (timer : option timer_option) : state :=
  (startScheduledRefreshTimer
     {| options_dbType := dbType;
        env_CUBEJS_DB_TYPE := env;
        options_scheduledRefreshTimer := timer;
        scheduledRefreshTimerInterval := None;
        intervals_created := 0 |}).2.

(** The instance's own operations on the timer state. *)
Inductive op : Type :=
| OpStart
| OpReload.

Definition apply_op (o : op) (s : state) : state :=
  match o with
  | OpStart => (startScheduledRefreshTimer s).2
  | OpReload => reloadEnvVariables s
  end.

Definition run_ops (os : list op) (s : state) : state :=
  foldl (λ s o, apply_op o s) s os.

(** The invariant of an instance: an interval exists only on an instance
    that is ready, and it is the only one ever created, by
    [startScheduledRefreshTimer]. *)
Definition timer_inv (s : state) : Prop :=
  match scheduledRefreshTimerInterval s with
  | Some iv =>
      isReadyForQueryProcessing s = true
      ∧ intervals_created s = 1
      ∧ ∃ t, iv = new_interval t
  | None => intervals_created s = 0
  end.

(** Modelled from the spec: [createCancelableInterval] of
    [@cubejs-backend/shared] is not part of the sources.  Sections 4.4,
    6 and 8: a run is started every period; whenever the previous run
    has not completed when the next is due, no run is started and the
    overlap diagnostic is emitted with the interval-id (incremented for
    each run started); when a run that was overrun completes, the second
    diagnostic is emitted with the interval-id and the elapsed time,
    which closes the overlap episode.  A run that was overrun has lasted
    past its period: no separate threshold is kept. *)
Record runtime : Type := mkRuntime {
  in_flight : bool;
  intervalId : nat;
  startTime : Z;
  overlapped : bool
}.

(** Modelled from the spec: the timer fires at time [now]. *)
Definition tick (iv : CancelableInterval) (now : Z) (r : runtime)
    : runtime * list log_entry :=
  if in_flight r then
    ({| in_flight := true; intervalId := intervalId r;
        startTime := startTime r; overlapped := true |},
     [onDuplicatedExecution iv (intervalId r)])
  else
    ({| in_flight := true; intervalId := S (intervalId r);
        startTime := now; overlapped := false |}, []).

(** Modelled from the spec: the run in flight completes at time [now]. *)
Definition finish (iv : CancelableInterval) (now : Z) (r : runtime)
    : runtime * list log_entry :=
  if in_flight r then
    ({| in_flight := false; intervalId := intervalId r;
        startTime := startTime r; overlapped := false |},
     if overlapped r
     then [onDuplicatedStateResolved iv (intervalId r) (now - startTime r)%Z]
     else [])
  else (r, []).

(** Modelled from the spec: what the interval does in the course of
    time, a firing of the timer or the completion of the run. *)
Inductive occurrence : Type :=
| Fires (now : Z)
| Completes (now : Z).

Definition occur (iv : CancelableInterval) (o : occurrence) (r : runtime)
    : runtime * list log_entry :=
  match o with
  | Fires now => tick iv now r
  | Completes now => finish iv now r
  end.

Fixpoint occurAll (iv : CancelableInterval) (os : list occurrence) (r : runtime)
    : runtime * list log_entry :=
  match os with
  | [] => (r, [])
  | o :: os =>
      let '(r1, l1) := occur iv o r in
      let '(r2, l2) := occurAll iv os r1 in
      (r2, l1 ++ l2)
  end.

(** The runtime of an interval that has just been created. *)
Definition idle : runtime :=
  {| in_flight := false; intervalId := 0; startTime := 0; overlapped := false |}.

End WithFormat.

End Timer.

(** ** Concrete collaborators used in the examples *)

Module Samples.
Import Broker.

(** A driver that accepts a logger and connects. *)
Definition healthy : BaseDriver :=
  mkDriver 1 (Some None) (Resolves tt) (Resolves tt).

(** A driver whose connection test rejects and which releases cleanly. *)
Definition unreachable : BaseDriver :=
  mkDriver 2 None (Rejects "ECONNREFUSED") (Resolves tt).

(** A driver whose connection test rejects and whose release rejects too. *)
Definition leaky : BaseDriver :=
  mkDriver 3 None (Rejects "ECONNREFUSED") (Rejects "pool already closed").

(** A duration printer standing in for [formatDuration]. *)
Definition millis (elapsed : Z) : string := pretty elapsed +:+ "ms".

End Samples.

(** ** Driver creation: environment check, driver lookup, default factory *)

Module Drivers.

Definition placeholderSubstr : string := "<YOUR_DB_".

Definition credentials : list string :=
  ["CUBEJS_DB_HOST"; "CUBEJS_DB_NAME"; "CUBEJS_DB_USER"; "CUBEJS_DB_PASS"].

Definition placeholders_error : Broker.error :=
  "Your .env file contains placeholders in DB credentials. " +:+
  "Please replace them with your DB credentials.".

(** [s.indexOf(sub)]; [None] stands for -1. *)
Definition indexOf (s sub : string) : option nat := String.index 0 sub s.

(** [process.env[credential] &&
     process.env[credential].indexOf(placeholderSubstr) === 0] *)
Definition has_placeholder (env : gmap string string) (credential : string) : bool :=
  match env !! credential with
  | Some v =>
      negb (bool_decide (v = "")) &&
      bool_decide (indexOf v placeholderSubstr = Some 0)
  | None => false
  end.

(** [checkEnvForPlaceholders()]: [Some e] when it throws [e]. *)
Definition checkEnvForPlaceholders (env : gmap string string) : option Broker.error :=
  match List.find (has_placeholder env) credentials with
  | Some _ => Some placeholders_error
  | None => None
  end.

Section Lookup.
(** The table [DriverDependencies] (own properties only), the test
    [fs.existsSync(path.join('node_modules', name))] on a module name,
    and [require] of a module followed by [new] of its class; none of
    the three is part of the sources. *)
Variable DriverDependencies : gmap string string.
Variable installed : string → bool.
Variable load : string → Broker.error + Broker.BaseDriver.

(** The text of [`${dbType}`] for a possibly undefined value. *)
Definition show (dbType : option string) : string := default "undefined" dbType.

Definition truthy_str (v : option string) : bool :=
  match v with
  | Some s => negb (bool_decide (s = ""))
  | None => false
  end.

(** [driverDependencies(dbType)]: the module to load, or the error thrown. *)
Definition driverDependencies (dbType : option string) : Broker.error + string :=
  if truthy_str (DriverDependencies !! show dbType) then
    inr (default "" (DriverDependencies !! show dbType))
  else if installed (show dbType +:+ "-cubejs-driver") then
    inr (show dbType +:+ "-cubejs-driver")
  else inl ("Unsupported db type: " +:+ show dbType).

(** [lookupDriverClass(dbType)], as far as the choice of the module. *)
Definition lookupDriverClass (env : gmap string string) (dbType : option string)
    : Broker.error + string :=
  driverDependencies
    (if truthy_str dbType then dbType else env !! "CUBEJS_DB_TYPE").

(** [createDriver(dbType)] *)
Definition createDriver (env : gmap string string) (dbType : string)
    : Broker.error + Broker.BaseDriver :=
  match checkEnvForPlaceholders env with
  | Some e => inl e
  | None =>
      match lookupDriverClass env (Some dbType) with
      | inl e => inl e
      | inr module => load module
      end
  end.

(** The default [driverFactory] of [handleConfiguration]; it is a
    synchronous function, so it returns a value or throws. *)
Definition driverFactory {Ctx : Type} (contextToDbType : Ctx → option string)
    (env : gmap string string) (ctx : Ctx) : Broker.call_result (option Broker.BaseDriver) :=
  if truthy_str (contextToDbType ctx) then
    match createDriver env (default "" (contextToDbType ctx)) with
    | inl e => Broker.Throws e
    | inr d => Broker.Resolves (Some d)
    end
  else Broker.Resolves None.

(** [getDriver] of an orchestrator of a server configured with the
    default factory: the factory receives [{ ...context, dataSource }]. *)
Definition getDriverDefault {Ctx : Type} (contextToDbType : Ctx * string → option string)
    (env : gmap string string) (context : Ctx) (dataSource : option string)
    (s : Broker.state) : Broker.pid * Broker.state :=
  Broker.getDriver dataSource
    (driverFactory contextToDbType env (context, default "default" dataSource)) s.

End Lookup.

End Drivers.

(** ** The server's own [getDriver] method *)

Module ServerDriver.

Inductive frame : Type :=
| AwaitFactory (r : Broker.error + option Broker.BaseDriver)
| AwaitTest (driver : Broker.BaseDriver) (r : Broker.error + unit).

Inductive promise : Type :=
| Pending (k : frame)
| Settled (o : Broker.settled).

Inductive event : Type :=
| EvFactory
| EvTestConnection (d : nat).

(** [this.driver] and the promises of the calls made so far. *)
Record state : Type := mkState {
  driver : option Broker.BaseDriver;
  promises : list promise;
  log : list event
}.

Definition init : state := {| driver := None; promises := []; log := [] |}.

Definition TypeError : Broker.error :=
  "TypeError: Cannot read property 'testConnection' of null".

(** A call of [async getDriver(ctx)], up to its first [await] or, when
    [this.driver] is set, to its [return]. *)
Definition getDriver (factory : Broker.call_result (option Broker.BaseDriver))
    (s : state) : Broker.pid * state :=
  let p := length (promises s) in
  match driver s with
  | Some d =>
      (p, {| driver := driver s;
             promises := promises s ++ [Settled (Broker.Fulfilled d)];
             log := log s |})
  | None =>
      (p, {| driver := None;
             promises := promises s ++
               [match factory with
                | Broker.Throws e => Settled (Broker.Rejected e)
                | Broker.Resolves d => Pending (AwaitFactory (inr d))
                | Broker.Rejects e => Pending (AwaitFactory (inl e))
                end];
             log := log s ++ [EvFactory] |})
  end.

(** The body of the call of promise [p] from one [await] to the next. *)
Definition resume (p : Broker.pid) (s : state) : state :=
  match promises s !! p with
  | Some (Pending (AwaitFactory (inl e))) =>
      {| driver := driver s;
         promises := <[p := Settled (Broker.Rejected e)]> (promises s);
         log := log s |}
  | Some (Pending (AwaitFactory (inr None))) =>
      {| driver := driver s;
         promises := <[p := Settled (Broker.Rejected TypeError)]> (promises s);
         log := log s |}
  | Some (Pending (AwaitFactory (inr (Some d)))) =>
      {| driver := driver s;
         promises :=
           <[p := match Broker.testConnection d with
                  | Broker.Throws e => Settled (Broker.Rejected e)
                  | Broker.Resolves _ => Pending (AwaitTest d (inr tt))
                  | Broker.Rejects e => Pending (AwaitTest d (inl e))
                  end]> (promises s);
         log := log s ++ [EvTestConnection (Broker.drv_id d)] |}
  | Some (Pending (AwaitTest d (inr _))) =>
      {| driver := Some d;
         promises := <[p := Settled (Broker.Fulfilled d)]> (promises s);
         log := log s |}
  | Some (Pending (AwaitTest d (inl e))) =>
      {| driver := driver s;
         promises := <[p := Settled (Broker.Rejected e)]> (promises s);
         log := log s |}
  | Some (Settled _) | None => s
  end.

(** Both [await]s of one call delivered. *)
Definition complete (p : Broker.pid) (s : state) : state := resume p (resume p s).

(** Several calls, one after the other within one job. *)
Definition callAll (fs : list (Broker.call_result (option Broker.BaseDriver)))
    (s : state) : state :=
  foldl (λ s f, (getDriver f s).2) s fs.

(** The [await]s of the calls delivered one by one, in the order of the
    promises listed. *)
Definition resumeAll (sch : list Broker.pid) (s : state) : state :=
  foldl (λ s p, resume p s) s sch.

Definition outcome (p : Broker.pid) (s : state) : option Broker.settled :=
  match promises s !! p with
  | Some (Settled o) => Some o
  | _ => None
  end.

#[global] Instance event_eq_dec : EqDecision event.
Proof. solve_decision. Defined.

Definition factory_calls (s : state) : nat :=
  length (filter (λ ev, ev = EvFactory) (log s)).

(** One [resume] seen from the promise it runs: its next state, the
    calls made and the handle stored in [this.driver], if any. *)
Definition next_cell (c : promise) : promise :=
  match c with
  | Pending (AwaitFactory (inl e)) => Settled (Broker.Rejected e)
  | Pending (AwaitFactory (inr None)) => Settled (Broker.Rejected TypeError)
  | Pending (AwaitFactory (inr (Some d))) =>
      match Broker.testConnection d with
      | Broker.Throws e => Settled (Broker.Rejected e)
      | Broker.Resolves _ => Pending (AwaitTest d (inr tt))
      | Broker.Rejects e => Pending (AwaitTest d (inl e))
      end
  | Pending (AwaitTest d (inr _)) => Settled (Broker.Fulfilled d)
  | Pending (AwaitTest d (inl e)) => Settled (Broker.Rejected e)
  | Settled o => Settled o
  end.

Definition next_events (c : promise) : list event :=
  match c with
  | Pending (AwaitFactory (inr (Some d))) => [EvTestConnection (Broker.drv_id d)]
  | _ => []
  end.

Definition stores (c : promise) : option Broker.BaseDriver :=
  match c with
  | Pending (AwaitTest d (inr _)) => Some d
  | _ => None
  end.

(** The promise of a call right after the call. *)
Definition start_cell (held : option Broker.BaseDriver)
    (factory : Broker.call_result (option Broker.BaseDriver)) : promise :=
  match held with
  | Some d => Settled (Broker.Fulfilled d)
  | None =>
      match factory with
      | Broker.Throws e => Settled (Broker.Rejected e)
      | Broker.Resolves d => Pending (AwaitFactory (inr d))
      | Broker.Rejects e => Pending (AwaitFactory (inl e))
      end
  end.

End ServerDriver.

(** ** The logger installed by the constructor *)

Module Logger.

Definition params : Type := gmap string string.

(** The second argument of a call of [this.event]. *)
Inductive props : Type :=
| PError (error : option string)
| PAggregated (loadRequestSuccessCount : nat).

(** The calls received by [options.logger], by [agentCollect] (its
    first argument) and by [this.event], and the counter of the
    production logger. *)
Record state : Type := mkState {
  delivered : list (string * params);
  collected : list params;
  events : list (string * props);
  loadRequestCount : nat
}.

Definition init : state :=
  {| delivered := []; collected := []; events := []; loadRequestCount := 0 |}.

Definition logger : Type := string → params → state → state.

(** [this.options.logger] *)
Definition options_logger : logger := λ msg ps s,
  {| delivered := delivered s ++ [(msg, ps)];
     collected := collected s;
     events := events s;
     loadRequestCount := loadRequestCount s |}.

(** [{ msg, ...params }]: a [msg] property of [params] wins. *)
Definition payload (msg : string) (ps : params) : params := ps ∪ {["msg" := msg]}.

Definition agentCollect (data : params) (s : state) : state :=
  {| delivered := delivered s;
     collected := collected s ++ [data];
     events := events s;
     loadRequestCount := loadRequestCount s |}.

Definition event (name : string) (p : props) (s : state) : state :=
  {| delivered := delivered s;
     collected := collected s;
     events := events s ++ [(name, p)];
     loadRequestCount := loadRequestCount s |}.

(** [initAgent()]: the logger it leaves in [this.logger], given the one
    it finds there and [process.env.CUBEJS_AGENT_ENDPOINT_URL]. *)
Definition initAgent (endpoint : option string) (oldLogger : logger) : logger :=
  match endpoint with
  | Some url =>
      if bool_decide (url = "") then oldLogger
      else λ msg ps s, agentCollect (payload msg ps) (oldLogger msg ps s)
  | None => oldLogger
  end.

Definition forwarded : list string :=
  ["Load Request"; "Load Request Success"; "Orchestrator error";
   "Internal Server Error"; "User Error"; "Compiling schema";
   "Recompiling schema"; "Slow Query Warning"].

(** The wrapper installed when [options.devServer] is set. *)
Definition dev_logger (oldLogger : logger) : logger := λ msg ps s,
  let s := if bool_decide (msg ∈ forwarded)
           then event msg (PError (ps !! "error")) s else s in
  oldLogger msg ps s.

(** The wrapper installed otherwise, with its counter. *)
Definition prod_logger (oldLogger : logger) : logger := λ msg ps s,
  let s := if bool_decide (msg = "Load Request Success")
           then {| delivered := delivered s;
                   collected := collected s;
                   events := events s;
                   loadRequestCount := S (loadRequestCount s) |}
           else s in
  oldLogger msg ps s.

(** The body of the one-minute [setInterval] of the production branch. *)
Definition flush (s : state) : state :=
  {| delivered := delivered s;
     collected := collected s;
     events := events s ++
       [("Load Request Success Aggregated", PAggregated (loadRequestCount s))];
     loadRequestCount := 0 |}.

(** [this.logger] as the constructor leaves it. *)
Definition constructor_logger (endpoint : option string) (devServer : bool) : logger :=
  (if devServer then dev_logger else prod_logger) (initAgent endpoint options_logger).

Definition logAll (l : logger) (msgs : list (string * params)) (s : state) : state :=
  foldl (λ s m, l m.1 m.2 s) s msgs.

(** What happens to a production instance: a message is logged or the
    timer fires. *)
Inductive action : Type :=
| Log (msg : string) (ps : params)
| Flush.

Definition step (endpoint : option string) (a : action) (s : state) : state :=
  match a with
  | Log msg ps => constructor_logger endpoint false msg ps s
  | Flush => flush s
  end.

Definition run (endpoint : option string) (acts : list action) (s : state) : state :=
  foldl (λ s a, step endpoint a s) s acts.

Definition is_success (a : action) : bool :=
  match a with
  | Log msg _ => bool_decide (msg = "Load Request Success")
  | Flush => false
  end.

Definition is_flush (a : action) : bool :=
  match a with Flush => true | Log _ _ => false end.

(** The number of "Load Request Success" messages among the actions. *)
Definition successes (acts : list action) : nat :=
  length (filter (λ a, is_success a = true) acts).

(** The messages logged, in order. *)
Definition messages (acts : list action) : list (string * params) :=
  omap (λ a, match a with Log msg ps => Some (msg, ps) | Flush => None end) acts.

(** The total reported by the aggregated events. *)
Definition reported (evs : list (string * props)) : nat :=
  sum_list (omap (λ ev, match ev.2 with
                        | PAggregated n => Some n
                        | PError _ => None
                        end) evs).

End Logger.

(** ** Reset and shutdown of an instance *)

Module Server.

(** The calls made on the collaborators: [releaseConnections] of the
    orchestrator storage, [clearInterval] of the sweep timer and
    [cancel] of the refresh interval. *)
Inductive call : Type :=
| ReleaseStorage
| ClearInterval
| Cancel (waitExecution : bool).

Section Instance.
Context {Ctx : Type}.
Variable formatDuration : Z → string.

Record state : Type := mkState {
  core : Core.state Ctx;
  timer : Timer.state;
  maxCompilerCacheKeep : option N;
  calls : list call
}.

Definition record (new : list call) (s : state) : state :=
  {| core := core s; timer := timer s;
     maxCompilerCacheKeep := maxCompilerCacheKeep s;
     calls := calls s ++ new |}.

(** [resetInstanceState()], from the return of the awaited
    [orchestratorStorage.releaseConnections()] to the end; what that
    call does to the handles is not part of the state. *)
Definition resetInstanceState (s : state) : state :=
  {| core :=
       {| Core.opts := Core.opts (core s);
          Core.compilerCache := LRU.reset (Core.compilerCache (core s));
          Core.compilers := Core.compilers (core s);
          Core.orchestratorStorage := ∅;
          Core.orchestrators := Core.orchestrators (core s) |};
     timer :=
       (Timer.startScheduledRefreshTimer formatDuration
          (Timer.reloadEnvVariables (timer s))).2;
     maxCompilerCacheKeep := maxCompilerCacheKeep s;
     calls := calls s ++ [ReleaseStorage] |}.

Definition stop_timers (waitExecution : bool) (s : state) : list call :=
  match maxCompilerCacheKeep s with
  | Some _ => [ClearInterval]
  | None => []
  end ++
  match Timer.scheduledRefreshTimerInterval (timer s) with
  | Some _ => [Cancel waitExecution]
  | None => []
  end.

(** [releaseConnections()]: [cancel()] is called without argument. *)
Definition releaseConnections (s : state) : state :=
  record (ReleaseStorage :: stop_timers false s) s.

(** [beforeShutdown()] *)
Definition beforeShutdown (s : state) : state :=
  record (stop_timers true s) s.

End Instance.

Arguments state Ctx : clear implicits.

End Server.

(** ** The scheduled refresh of all contexts *)

Module Refresh.

(** [ScheduledRefreshOptions] as far as this code touches it. *)
Record ScheduledRefreshOptions : Type := mkOptions {
  concurrency : option nat;
  timezones : option (list string);
  others : gmap string string
}.

(** [options.scheduledRefreshConcurrency] and
    [options.scheduledRefreshTimeZones]. *)
Record config : Type := mkConfig {
  scheduledRefreshConcurrency : option nat;
  scheduledRefreshTimeZones : option (list string)
}.

(** [{ ...options, concurrency }] followed by the assignment of
    [timezones] when time zones are configured. *)
Definition queryingOptions (cfg : config) (options : ScheduledRefreshOptions)
    : ScheduledRefreshOptions :=
  {| concurrency := scheduledRefreshConcurrency cfg;
     timezones :=
       match scheduledRefreshTimeZones cfg with
       | Some tz => Some tz
       | None => timezones options
       end;
     others := others options |}.

Definition refresh_error : Context.log_entry :=
  ("Refresh Scheduler Error",
   [("error", "At least one context should be returned by scheduledRefreshContexts")]).

(** A call of [RefreshScheduler.runScheduledRefresh]. *)
Definition run : Type := option Context.UserBackgroundContext * ScheduledRefreshOptions.

(** [handleScheduledRefreshInterval(options)] once
    [scheduledRefreshContexts()] has delivered [contexts]: the logger
    call and the refresh runs started, in order. *)
Definition handleScheduledRefreshInterval (cfg : config)
    (options : ScheduledRefreshOptions)
    (contexts : list (option Context.UserBackgroundContext))
    (s : Context.state) : list run * Context.state :=
  let s :=
    if bool_decide (length contexts < 1) then
      {| Context.warningBackgroundContextShow := Context.warningBackgroundContextShow s;
         Context.logged := Context.logged s ++ [refresh_error] |}
    else s in
  let '(migrated, s) := Context.migrateAll contexts s in
  ((λ c, (c, queryingOptions cfg options)) <$> migrated, s).

End Refresh.

(** ** The external database type chosen by [handleConfiguration] *)

Module Config.

Definition skipOnEnv : list string :=
  ["CUBEJS_EXT_DB_URL"; "CUBEJS_EXT_DB_HOST"; "CUBEJS_EXT_DB_NAME";
   "CUBEJS_EXT_DB_PORT"; "CUBEJS_EXT_DB_USER"; "CUBEJS_EXT_DB_PASS";
   "CUBEJS_CUBESTORE_HOST"; "CUBEJS_CUBESTORE_PORT";
   "CUBEJS_CUBESTORE_USER"; "CUBEJS_CUBESTORE_PASS"].

(** [skipOnEnv.filter((field) => process.env[field] !== undefined)] *)
Definition definedExtDBVariables (env : gmap string string) : list string :=
  filter (λ field, is_Some (env !! field)) skipOnEnv.

(** [opts.externalDbType || process.env.CUBEJS_EXT_DB_TYPE ||
     (getEnv('devMode') || definedExtDBVariables.length > 0) && 'cubestore'
     || undefined] *)
Definition externalDbType (opt : option Timer.DbType) (env : gmap string string)
    (devMode : bool) : option Timer.DbType :=
  if Timer.truthy_dbType opt then opt
  else if Drivers.truthy_str (env !! "CUBEJS_EXT_DB_TYPE")
  then Timer.DbName <$> env !! "CUBEJS_EXT_DB_TYPE"
  else if devMode || bool_decide (0 < length (definedExtDBVariables env))
  then Some (Timer.DbName "cubestore")
  else None.

(** [process.env.NODE_ENV !== 'production' || getEnv('devMode')] *)
Definition devServer (env : gmap string string) (devMode : bool) : bool :=
  bool_decide (env !! "NODE_ENV" ≠ Some "production") || devMode.

#[global] Instance dbType_eq_dec : EqDecision Timer.DbType.
Proof. solve_decision. Defined.

(** Whether the configuration reaches the creation of the local
    [CubeStoreHandler]; [supported] is [isCubeStoreSupported()]. *)
Definition startsCubeStoreHandler (opt : option Timer.DbType)
    (env : gmap string string) (devMode serverless supported : bool) : bool :=
  bool_decide (externalDbType opt env devMode = Some (Timer.DbName "cubestore"))
  && devServer env devMode && negb serverless
  && bool_decide (length (definedExtDBVariables env) = 0)
  && supported.

End Config.

(** ** Further concrete collaborators *)

Module Fixtures.

(** A second healthy driver. *)
Definition replica : Broker.BaseDriver :=
  Broker.mkDriver 4 None (Broker.Resolves tt) (Broker.Resolves tt).

(** An environment left as generated, and the same one filled in. *)
Definition env_template : gmap string string :=
  <["CUBEJS_DB_HOST" := "<YOUR_DB_HOST_HERE>"]> (<["CUBEJS_DB_TYPE" := "postgres"]> ∅).

Definition env_filled : gmap string string :=
  <["CUBEJS_DB_HOST" := "db.internal"]> (<["CUBEJS_DB_TYPE" := "postgres"]> ∅).

Definition table : gmap string string :=
  <["postgres" := "@cubejs-backend/postgres-driver"]> ∅.

Definition nothing_installed (name : string) : bool := false.

Definition load_healthy (module : string) : Broker.error + Broker.BaseDriver :=
  inr Samples.healthy.

(** Every context uses postgres; and no context names a database. *)
Definition always_postgres (ctx : unit * string) : option string := Some "postgres".
Definition no_dbType (ctx : unit * string) : option string := None.

End Fixtures.

(** * Properties *)

(** ** Connection broker *)

Section BrokerFacts.
Import Broker.

Lemma promises_write_slot sl v s : promises (write_slot sl v s) = promises s.
Proof. by destruct sl. Qed.

Lemma log_write_slot sl v s : log (write_slot sl v s) = log s.
Proof. by destruct sl. Qed.

Lemma read_write_slot sl v s : read_slot sl (write_slot sl v s) = v.
Proof. destruct sl; simpl; [by rewrite lookup_insert_eq | done]. Qed.

Lemma read_slot_emit sl ev s : read_slot sl (emit ev s) = read_slot sl s.
Proof. by destruct sl. Qed.

Lemma read_slot_set_promise sl p v s :
  read_slot sl (set_promise p v s) = read_slot sl s.
Proof. by destruct sl. Qed.

(** A call that finds the slot occupied changes nothing. *)
Lemma acquire_hit sl f s p : read_slot sl s = Some p → acquire sl f s = (p, s).
Proof. unfold acquire. by intros ->. Qed.

Lemma callAll_hit sl fs s p :
  read_slot sl s = Some p →
  callAll (acquire sl) fs s = (replicate (length fs) p, s).
Proof.
  intros H. induction fs as [|f fs IH]; simpl; [done|].
  by rewrite (acquire_hit _ _ _ _ H), IH.
Qed.

Lemma length_on_catch sl p drv e s :
  length (promises (on_catch sl p drv e s)) = length (promises s).
Proof.
  unfold on_catch. destruct drv as [d|]; [destruct (release d)|]; simpl;
    by rewrite length_insert, promises_write_slot.
Qed.

Lemma lookup_on_catch sl p drv e s :
  p < length (promises s) →
  promises (on_catch sl p drv e s) !! p = Some (catch_cell sl drv e).
Proof.
  intros Hp. unfold on_catch, catch_cell.
  destruct drv as [d|]; [destruct (release d)|]; simpl;
    rewrite list_lookup_insert_eq; rewrite ?promises_write_slot; done.
Qed.

Lemma log_on_catch sl p drv e s :
  log (on_catch sl p drv e s) = log s ++ catch_events drv.
Proof.
  unfold on_catch, catch_events.
  destruct drv as [d|]; [destruct (release d)|]; simpl;
    rewrite log_write_slot; by rewrite ?app_nil_r.
Qed.

Lemma read_slot_on_catch sl p drv e s :
  read_slot sl (on_catch sl p drv e s) = None.
Proof.
  unfold on_catch.
  destruct drv as [d|]; [destruct (release d)|]; simpl;
    rewrite read_slot_set_promise, ?read_slot_emit; apply read_write_slot.
Qed.

Lemma length_call_testConnection sl p d s :
  length (promises (call_testConnection sl p d s)) = length (promises s).
Proof.
  unfold call_testConnection. destruct (testConnection d).
  - by rewrite length_on_catch.
  - simpl. by rewrite length_insert.
  - simpl. by rewrite length_insert.
Qed.

Lemma lookup_call_testConnection sl p d s :
  p < length (promises s) →
  promises (call_testConnection sl p d s) !! p = Some (test_cell sl d).
Proof.
  intros Hp. unfold call_testConnection, test_cell.
  destruct (testConnection d);
    [by apply lookup_on_catch | by apply list_lookup_insert_eq..].
Qed.

Lemma log_call_testConnection sl p d s :
  log (call_testConnection sl p d s) = log s ++ test_events d.
Proof.
  unfold call_testConnection, test_events.
  destruct (testConnection d); rewrite ?log_on_catch; simpl;
    by rewrite <- ?app_assoc.
Qed.

Lemma read_write_slot_ne sl sl' v s :
  sl ≠ sl' → read_slot sl' (write_slot sl v s) = read_slot sl' s.
Proof.
  intros Hne. destruct sl, sl'; simpl; try done.
  rewrite lookup_insert_ne; [done | congruence].
Qed.

Lemma read_slot_on_catch_ne sl sl' p drv e s :
  sl ≠ sl' → read_slot sl' (on_catch sl p drv e s) = read_slot sl' s.
Proof.
  intros Hne. unfold on_catch.
  destruct drv as [d|]; [destruct (release d)|]; simpl;
    rewrite read_slot_set_promise, ?read_slot_emit; by apply read_write_slot_ne.
Qed.

Lemma read_slot_on_catch_any sl sl' p drv e s :
  read_slot sl' (on_catch sl p drv e s) =
  if decide (sl = sl') then None else read_slot sl' s.
Proof.
  case_decide as H; [subst; apply read_slot_on_catch | by apply read_slot_on_catch_ne].
Qed.

Lemma read_slot_call_testConnection sl sl' p d s :
  read_slot sl' (call_testConnection sl p d s) =
  match testConnection d with
  | Throws _ => if decide (sl = sl') then None else read_slot sl' s
  | _ => read_slot sl' s
  end.
Proof.
  unfold call_testConnection. destruct (testConnection d).
  - by rewrite read_slot_on_catch_any, read_slot_emit.
  - by rewrite read_slot_set_promise, read_slot_emit.
  - by rewrite read_slot_set_promise, read_slot_emit.
Qed.

(** One [resume], as seen from the promise it runs. *)
Lemma resume_view p s c :
  promises s !! p = Some c →
  promises (resume p s) !! p = Some (next_cell c)
  ∧ log (resume p s) = log s ++ next_events c
  ∧ length (promises (resume p s)) = length (promises s)
  ∧ ∀ sl', read_slot sl' (resume p s) =
           match enters_catch c with
           | Some sl => if decide (sl = sl') then None else read_slot sl' s
           | None => read_slot sl' s
           end.
Proof.
  intros Hc. assert (Hp : p < length (promises s)) by (by eapply lookup_lt_Some).
  unfold resume. rewrite Hc.
  destruct c as [sl [[e|[d|]]|d [e|[]]|e [e'|[]]]|o];
    cbn [next_cell next_events enters_catch].
  - rewrite lookup_on_catch, log_on_catch, length_on_catch by done.
    repeat split; try done. intros; apply read_slot_on_catch_any.
  - destruct (setLogger d) as [[e|]|].
    + rewrite lookup_on_catch, log_on_catch, length_on_catch by done.
      unfold catch_events. cbn [log emit promises]. rewrite <- app_assoc.
      repeat split; try done.
      intros. by rewrite read_slot_on_catch_any, read_slot_emit.
    + rewrite lookup_call_testConnection, log_call_testConnection,
        length_call_testConnection by done.
      cbn [log emit promises]. rewrite <- app_assoc. repeat split; try done.
      intros. rewrite read_slot_call_testConnection, read_slot_emit.
      by destruct (testConnection d).
    + rewrite lookup_call_testConnection, log_call_testConnection,
        length_call_testConnection by done.
      repeat split; try done.
      intros. rewrite read_slot_call_testConnection.
      by destruct (testConnection d).
  - rewrite lookup_on_catch, log_on_catch, length_on_catch by done.
    repeat split; try done. intros; apply read_slot_on_catch_any.
  - rewrite lookup_on_catch, log_on_catch, length_on_catch by done.
    repeat split; try done. intros; apply read_slot_on_catch_any.
  - cbn [promises log set_promise].
    rewrite list_lookup_insert_eq, length_insert, app_nil_r by done.
    repeat split; try done; intros; apply read_slot_set_promise.
  - cbn [promises log set_promise].
    rewrite list_lookup_insert_eq, length_insert, app_nil_r by done.
    repeat split; try done; intros; apply read_slot_set_promise.
  - cbn [promises log set_promise].
    rewrite list_lookup_insert_eq, length_insert, app_nil_r by done.
    repeat split; try done; intros; apply read_slot_set_promise.
  - rewrite Hc, app_nil_r. repeat split; done.
Qed.

Lemma count_log_app f s s' evs :
  log s' = log s ++ evs →
  count f s' = count f s + length (filter (λ ev, f ev = true) evs).
Proof. unfold count. intros ->. by rewrite filter_app, length_app. Qed.

(** A call that finds the slot empty starts one attempt. *)
Lemma acquire_miss sl f s :
  read_slot sl s = None →
  let p := length (promises s) in
  let s1 := (acquire sl f s).2 in
  (acquire sl f s).1 = p
  ∧ read_slot sl s1 = Some p
  ∧ promises s1 !! p = Some (start_cell sl f)
  ∧ log s1 = log s ++ [EvFactory sl].
Proof.
  intros H. unfold acquire. rewrite H. cbn [fst snd].
  assert (Hp : length (promises s) <
               length (promises (emit (EvFactory sl)
                 (alloc (Pending sl (AwaitFactory (inr None))) s)))).
  { cbn [promises emit alloc]. rewrite length_app. simpl. lia. }
  repeat split.
  - apply read_write_slot.
  - rewrite promises_write_slot. destruct f; cbn [start_cell].
    + by rewrite lookup_on_catch.
    + cbn [promises set_promise]. by rewrite list_lookup_insert_eq.
    + cbn [promises set_promise]. by rewrite list_lookup_insert_eq.
  - rewrite log_write_slot. destruct f.
    + rewrite log_on_catch. cbn [catch_events log emit alloc]. by rewrite app_nil_r.
    + done.
    + done.
Qed.

(** Three resumes, as seen from the promise they run. *)
Lemma complete_view p s c :
  promises s !! p = Some c →
  promises (complete p s) !! p = Some (next_cell (next_cell (next_cell c)))
  ∧ log (complete p s) =
      log s ++ chain_events c
  ∧ ∀ sl', read_slot sl' (complete p s) =
           match chain_catch c with
           | Some sl => if decide (sl = sl') then None else read_slot sl' s
           | None => read_slot sl' s
           end.
Proof.
  intros Hc. unfold complete.
  destruct (resume_view p s c Hc) as (H1 & L1 & _ & S1).
  destruct (resume_view p _ _ H1) as (H2 & L2 & _ & S2).
  destruct (resume_view p _ _ H2) as (H3 & L3 & _ & S3).
  split; [done|]. split.
  - rewrite L3, L2, L1. by rewrite <- !app_assoc.
  - intros sl'. rewrite S3, S2, S1. unfold chain_catch. clear.
    destruct c as [sl [[e|[d|]]|d [e|[]]|e [e'|[]]]|o];
      cbn [enters_catch next_cell]; unfold test_cell, catch_cell;
      try destruct (setLogger d) as [[?|]|];
      try destruct (testConnection d); simpl; unfold catch_cell;
      try destruct (release d); simpl;
      repeat case_decide; congruence.
Qed.

Ltac crack_driver d :=
  unfold failure_with_handle, release_error, test_events, test_cell, catch_cell in *;
  destruct d as [? [[?|]|] [?|[]|?] [?|[]|?]]; simpl in *.

Lemma chain_start sl f :
  next_cell (next_cell (next_cell (start_cell sl f))) = Settled (attempt_outcome f).
Proof.
  destruct f as [e|[d|]|e]; try done.
  unfold attempt_outcome. cbn [start_cell next_cell].
  crack_driver d; reflexivity.
Qed.

Lemma chain_tests sl f :
  length (filter (λ ev, is_test ev = true) (chain_events (start_cell sl f)))
  = expected_tests f.
Proof.
  destruct f as [e|[d|]|e]; try done.
  unfold chain_events, expected_tests. cbn [start_cell next_cell next_events].
  crack_driver d; reflexivity.
Qed.

Lemma chain_no_factory c :
  length (filter (λ ev, is_factory ev = true) (chain_events c)) = 0.
Proof.
  unfold chain_events.
  destruct c as [sl [[e|[d|]]|d [e|[]]|e [e'|[]]]|o];
    cbn [next_cell next_events]; try reflexivity;
    crack_driver d; reflexivity.
Qed.

Lemma chain_release sl d e :
  failure_with_handle d = Some e →
  length (filter (λ ev, is_release ev = true)
            (chain_events (Pending sl (AwaitFactory (inr (Some d)))))) = 1.
Proof.
  unfold chain_events. cbn [next_cell next_events].
  crack_driver d; intros; try discriminate; reflexivity.
Qed.

Lemma chain_catch_success sl d :
  failure_with_handle d = None →
  chain_catch (Pending sl (AwaitFactory (inr (Some d)))) = None.
Proof.
  unfold chain_catch. cbn [next_cell enters_catch].
  crack_driver d; intros; try discriminate; reflexivity.
Qed.

Lemma outcome_lookup p s o :
  promises s !! p = Some (Settled o) → outcome p s = Some o.
Proof. unfold outcome. by intros ->. Qed.

Lemma getDriver_acquire ds :
  getDriver ds = acquire (DataSource (default "default" ds)).
Proof. reflexivity. Qed.

(** The sibling path of the reset: a failure delivered through an
    [await] (a rejected factory promise, a [null] handle, a throwing
    [setLogger], a failed [testConnection]) leaves the slot empty once
    the attempt has run to its end. *)
Lemma async_failure_resets_slot p s sl r e :
  promises s !! p = Some (Pending sl (AwaitFactory r)) →
  outcome p (complete p s) = Some (Rejected e) →
  read_slot sl (complete p s) = None.
Proof.
  intros Hc Ho. destruct (complete_view p s _ Hc) as (H3 & _ & Hs).
  rewrite Hs. unfold outcome in Ho. rewrite H3 in Ho. clear Hs H3 Hc.
  unfold chain_catch.
  destruct r as [e0|[d|]];
    cbn [enters_catch next_cell] in *; try (by case_decide).
  crack_driver d; try (by case_decide); discriminate.
Qed.




(** C2, the defect: when the factory throws synchronously, the [catch]
    block empties the slot before the enclosing assignment stores the
    already rejected promise in it.  The slot then holds the failed
    promise for good: every later [getDriver] call returns it and the
    factory is never invoked again. *)
Theorem C2_sync_throw_keeps_failed_promise (ds : option string) (e : Broker.error)
    (f : Broker.call_result (option Broker.BaseDriver)) (s : Broker.state) :
  read_slot (DataSource (default "default" ds)) s = None →
  let p := length (promises s) in
  let s1 := (getDriver ds (Throws e) s).2 in
  (getDriver ds (Throws e) s).1 = p
  ∧ outcome p s1 = Some (Rejected e)
  ∧ read_slot (DataSource (default "default" ds)) s1 = Some p
  ∧ getDriver ds f s1 = (p, s1)
  ∧ count is_factory (getDriver ds f s1).2 = S (count is_factory s).
Proof.
  intros Hs p s1. subst s1. rewrite getDriver_acquire.
  destruct (acquire_miss _ (Throws e) s Hs) as (Hp & Hsl & Hc & Hl).
  fold p in Hp, Hsl, Hc.
  assert (Hhit : ∀ f', acquire (DataSource (default "default" ds)) f'
                         (acquire (DataSource (default "default" ds)) (Throws e) s).2
                       = (p, (acquire (DataSource (default "default" ds)) (Throws e) s).2))
    by (intros; by apply acquire_hit).
  repeat split; try done.
  - by apply outcome_lookup.
  - rewrite Hhit. cbn [snd]. rewrite (count_log_app _ s _ _ Hl). simpl. lia.
Qed.

Lemma C2_sync_throw_keeps_failed_promise_witness :
  let s1 := (getDriver None (Throws "Unsupported db type: foo") init).2 in
  outcome 0 s1 = Some (Rejected "Unsupported db type: foo")
  ∧ getDriver None (Resolves (Some Samples.healthy)) s1 = (0, s1)
  ∧ count is_factory (getDriver None (Resolves (Some Samples.healthy)) s1).2 = 1.
Proof.
  destruct (C2_sync_throw_keeps_failed_promise None "Unsupported db type: foo"
              (Resolves (Some Samples.healthy)) init eq_refl)
    as (_ & H2 & _ & H4 & H5).
  exact (conj H2 (conj H4 H5)).
Defined.

(** The external-storage slot has the same defect. *)
Lemma getExternalDriverFactory_sync_throw e f s :
  externalPreAggregationsDriverPromise s = None →
  let p := length (promises s) in
  let s1 := (getExternalDriverFactory (Throws e) s).2 in
  outcome p s1 = Some (Rejected e)
  ∧ externalPreAggregationsDriverPromise s1 = Some p
  ∧ getExternalDriverFactory f s1 = (p, s1).
Proof.
  intros Hs p s1. subst s1. unfold getExternalDriverFactory.
  destruct (acquire_miss ExternalPreAggregations (Throws e) s Hs) as (Hp & Hsl & Hc & Hl).
  fold p in Hp, Hsl, Hc.
  repeat split; [by apply outcome_lookup | done | by apply acquire_hit].
Qed.

(** C3, the claim as stated fails: the connection test rejects with
    "ECONNREFUSED", the handle's [release] rejects too, and the callers
    observe the error of [release], not the original one. *)
Lemma C3_release_error_reaches_callers :
  let s1 := (getDriver None (Resolves (Some Samples.leaky)) init).2 in
  outcome 0 (complete 0 s1) = Some (Rejected "pool already closed")
  ∧ outcome 0 (complete 0 s1) ≠ Some (Rejected "ECONNREFUSED").
Proof. vm_compute. split; congruence. Qed.

(** C3 (as amended): when an attempt fails after the factory delivered
    a handle, [release] is called on the handle exactly once and awaited;
    if it succeeds the callers observe the original failure, and if it
    throws or rejects its error is what the callers observe instead. *)
Theorem C3_failed_attempt_releases_handle (p : Broker.pid) (sl : Broker.slot)
    (d : Broker.BaseDriver) (e : Broker.error) (s : Broker.state) :
  promises s !! p = Some (Pending sl (AwaitFactory (inr (Some d)))) →
  failure_with_handle d = Some e →
  outcome p (complete p s) = Some (Rejected (default e (release_error d)))
  ∧ count is_release (complete p s) = S (count is_release s)
  ∧ read_slot sl (complete p s) = None.
Proof.
  intros Hc Hf.
  destruct (complete_view p s _ Hc) as (H3 & L3 & _).
  pose proof (chain_start sl (Resolves (Some d))) as Hch.
  cbn [start_cell attempt_outcome] in Hch. rewrite Hf in Hch.
  rewrite Hch in H3.
  assert (Ho : outcome p (complete p s) = Some (Rejected (default e (release_error d))))
    by (by apply outcome_lookup).
  repeat split; [done | | by eapply async_failure_resets_slot].
  rewrite (count_log_app _ s _ _ L3), (chain_release sl d e Hf). lia.
Qed.

Lemma C3_failed_attempt_releases_handle_witness :
  let s1 := (getDriver None (Resolves (Some Samples.unreachable)) init).2 in
  outcome 0 (complete 0 s1) = Some (Rejected "ECONNREFUSED")
  ∧ count is_release (complete 0 s1) = 1
  ∧ read_slot (DataSource "default") (complete 0 s1) = None.
Proof.
  exact (C3_failed_attempt_releases_handle 0 (DataSource "default")
           Samples.unreachable "ECONNREFUSED"
           (getDriver None (Resolves (Some Samples.unreachable)) init).2
           eq_refl eq_refl).
Defined.

End BrokerFacts.

(** ** Compiler cache *)

Section CacheFacts.
Import LRU.
Context {V : Type}.
Implicit Types (c : LRU.t V) (l : list (entry V)) (e : entry V) (k : string).

Lemma find_cons_eq k e l : key e = k → find k (e :: l) = Some e.
Proof. intros H. unfold find. by rewrite filter_cons_True. Qed.

Lemma find_cons_ne k e l : key e ≠ k → find k (e :: l) = find k l.
Proof. intros H. unfold find. by rewrite filter_cons_False. Qed.

Lemma find_Some k l e : find k l = Some e → e ∈ l ∧ key e = k.
Proof.
  unfold find. intros H. apply head_Some_elem_of in H.
  by apply list_elem_of_filter in H as [? ?].
Qed.

Lemma find_None k l : find k l = None ↔ ∀ e, e ∈ l → key e ≠ k.
Proof.
  unfold find. rewrite head_None. split.
  - intros H e He Hk. assert (e ∈ filter (λ e, key e = k) l) as Hin
      by (by apply list_elem_of_filter).
    rewrite H in Hin. by apply elem_of_nil in Hin.
  - intros H. induction l as [|x l IH]; [done|].
    rewrite filter_cons_False; [apply IH | apply H; left].
    intros e He. apply H. by right.
Qed.

Lemma remove_absent k l : (∀ e, e ∈ l → key e ≠ k) → remove k l = l.
Proof.
  intros H. unfold remove. induction l as [|x l IH]; [done|].
  rewrite filter_cons_True by (apply H; left).
  f_equal. apply IH. intros e He. apply H. by right.
Qed.

Lemma entries_set k v now c :
  entries (set k v now c) = take (max c) (mkEntry k v now :: remove k (entries c)).
Proof. reflexivity. Qed.

Lemma length_set k v now c : length (entries (set k v now c)) ≤ max c.
Proof. rewrite entries_set, length_take. lia. Qed.

(** Storing a new key in a full cache drops the last entry, the one
    least recently used. *)
Lemma set_evicts_last k v now c :
  find k (entries c) = None →
  length (entries c) = max c →
  0 < max c →
  entries (set k v now c) = mkEntry k v now :: removelast (entries c).
Proof.
  intros Hk Hfull Hpos. rewrite entries_set.
  rewrite remove_absent by (by apply find_None).
  destruct (max c) as [|n] eqn:Hm; [lia|]. cbn [take]. f_equal.
  rewrite removelast_firstn_len, Hfull. reflexivity.
Qed.

Lemma get_hit k now c v :
  (get k now c).1 = Some v →
  ∃ e, find k (entries c) = Some e
       ∧ val e = v
       ∧ stale c now e = false
       ∧ entries (get k now c).2 =
           mkEntry k v (if updateAgeOnGet c then now else stamp e)
             :: remove k (entries c).
Proof.
  unfold get. destruct (find k (entries c)) as [e|] eqn:Hf; [|done].
  destruct (stale c now e) eqn:Hst; [done|]. cbn [fst snd].
  intros [= <-]. exists e. by repeat split.
Qed.

Lemma get_miss k now c :
  (get k now c).1 = None → (get k now c).2 = c.
Proof.
  unfold get. destruct (find k (entries c)) as [e|]; [|done].
  by destruct (stale c now e).
Qed.

Lemma get_front k now c e l :
  entries c = e :: l → key e = k → stale c now e = false →
  (get k now c).1 = Some (val e).
Proof.
  intros He Hk Hst. unfold get. rewrite He, (find_cons_eq k e l Hk).
  by rewrite Hst.
Qed.

Lemma get_max k now c : max (get k now c).2 = max c.
Proof.
  unfold get. destruct (find k (entries c)) as [e|]; [|done].
  by destruct (stale c now e).
Qed.

Lemma get_maxAge k now c : maxAge (get k now c).2 = maxAge c.
Proof.
  unfold get. destruct (find k (entries c)) as [e|]; [|done].
  by destruct (stale c now e).
Qed.

Lemma elem_of_prune now c e :
  e ∈ entries (prune now c) ↔ e ∈ entries c ∧ stale c now e = false.
Proof. unfold prune. cbn [entries with_entries]. rewrite list_elem_of_filter. tauto. Qed.

Lemma maxAge_sweeps (sweeps : list Z) c :
  maxAge (foldl (λ c ts, prune ts c) c sweeps) = maxAge c.
Proof.
  revert c. induction sweeps as [|t ts IH]; intros c; [done|].
  simpl. by rewrite IH.
Qed.

Lemma sweeps_subset (sweeps : list Z) c e :
  e ∈ entries (foldl (λ c ts, prune ts c) c sweeps) → e ∈ entries c.
Proof.
  revert c. induction sweeps as [|t ts IH]; intros c; [done|]. simpl.
  intros H. apply IH in H. by apply elem_of_prune in H as [? _].
Qed.

Lemma set_stamp k v now c e :
  e ∈ entries (set k v now c) → key e = k → e = mkEntry k v now.
Proof.
  rewrite entries_set. intros He Hk. apply elem_of_take in He as (i & Hi & _).
  destruct i as [|i]; [by injection Hi|].
  cbn in Hi. apply list_elem_of_lookup_2 in Hi.
  unfold remove in Hi. by apply list_elem_of_filter in Hi as [? _].
Qed.

Lemma get_updateAgeOnGet k now c : updateAgeOnGet (get k now c).2 = updateAgeOnGet c.
Proof.
  unfold get. destruct (find k (entries c)) as [e|]; [|done].
  by destruct (stale c now e).
Qed.

Lemma remove_app k l1 l2 : remove k (l1 ++ l2) = remove k l1 ++ remove k l2.
Proof. apply filter_app. Qed.

Lemma remove_cons_ne k e l : key e ≠ k → remove k (e :: l) = e :: remove k l.
Proof. intros H. unfold remove. by rewrite filter_cons_True. Qed.

Lemma remove_length k l e : find k l = Some e → S (length (remove k l)) ≤ length l.
Proof.
  intros H. apply find_Some in H as [He Hk]. unfold remove.
  pose proof (length_filter_lt (λ e, key e ≠ k) l e He) as Hlt.
  cbn in Hlt. apply Hlt. by intros [].
Qed.

Lemma remove_no_key k l : k ∉ key <$> remove k l.
Proof.
  intros H. apply list_elem_of_fmap in H as (e & -> & He).
  unfold remove in He. by apply list_elem_of_filter in He as [? _].
Qed.

Lemma find_app_ne k l1 l2 :
  (∀ x, x ∈ l1 → key x ≠ k) → find k (l1 ++ l2) = find k l2.
Proof.
  intros H. induction l1 as [|x l1 IH]; [done|]. cbn [app].
  rewrite find_cons_ne by (apply H; left). apply IH.
  intros y Hy. apply H. by right.
Qed.

Lemma NoDup_keys_filter (P : entry V → Prop) `{!∀ e, Decision (P e)} l :
  NoDup (key <$> l) → NoDup (key <$> filter P l).
Proof.
  induction l as [|x l IH]; [done|]. cbn [fmap list_fmap].
  rewrite NoDup_cons. intros [Hx Hl]. destruct (decide (P x)).
  - rewrite filter_cons_True by done. cbn [fmap list_fmap]. apply NoDup_cons.
    split; [|by apply IH]. intros Hin. apply Hx.
    apply list_elem_of_fmap in Hin as (y & -> & Hy).
    apply list_elem_of_filter in Hy as [_ Hy]. by apply list_elem_of_fmap_2.
  - rewrite filter_cons_False by done. by apply IH.
Qed.

Lemma keys_bound (K : list string) l :
  NoDup (key <$> l) → (∀ x, x ∈ l → key x ∈ K) →
  length l ≤ length (remove_dups K).
Proof.
  intros Hnd HK. rewrite <- (length_fmap key l). apply submseteq_length.
  apply NoDup_submseteq; [done|]. intros x Hx.
  apply list_elem_of_fmap in Hx as (e & -> & He).
  apply elem_of_remove_dups. by apply HK.
Qed.

Lemma stale_eq c c' now e e' :
  maxAge c = maxAge c' → stamp e = stamp e' → stale c now e = stale c' now e'.
Proof. unfold stale. by intros -> ->. Qed.

(** A hit is never older than the max-age. *)
Lemma get_hit_fresh k now c v :
  (get k now c).1 = Some v →
  ∃ e, e ∈ entries c ∧ key e = k ∧ val e = v
       ∧ ∀ age, maxAge c = Some age → (now - stamp e ≤ age)%Z.
Proof.
  intros H. apply get_hit in H as (e & Hf & Hv & Hst & _).
  apply find_Some in Hf as [He Hk]. exists e. repeat split; try done.
  intros age Ha. unfold stale in Hst. rewrite Ha in Hst.
  apply bool_decide_eq_false in Hst. lia.
Qed.

End CacheFacts.

(** ** Tenant-keyed instances *)

Section CoordinatorFacts.
Import LRU Core.
Context {Ctx : Type}.
Variable contextToAppId : Ctx → string.
Variable contextToOrchestratorId : Ctx → string.

Local Abbreviation getCompilerApi := (Core.getCompilerApi contextToAppId).
Local Abbreviation getOrchestratorApi := (Core.getOrchestratorApi contextToOrchestratorId).

(** A lookup hit returns the stored object and creates nothing. *)
Lemma getCompilerApi_hit (context : Ctx) now (s : Core.state Ctx) a :
  (get (contextToAppId context) now (compilerCache s)).1 = Some a →
  (getCompilerApi context now s).1 = a
  ∧ length (compilers (getCompilerApi context now s).2) = length (compilers s)
  ∧ compilerCache (getCompilerApi context now s).2 =
      (get (contextToAppId context) now (compilerCache s)).2.
Proof.
  intros H. unfold Core.getCompilerApi.
  destruct (get (contextToAppId context) now (compilerCache s)) as [hit cache].
  cbn [fst] in H. subst hit. cbn [fst snd compilers compilerCache].
  split; [done|]. split; [|done]. by rewrite length_alter.
Qed.

(** A lookup miss creates one object and stores it. *)
Lemma getCompilerApi_miss (context : Ctx) now (s : Core.state Ctx) :
  (get (contextToAppId context) now (compilerCache s)).1 = None →
  (getCompilerApi context now s).1 = length (compilers s)
  ∧ length (compilers (getCompilerApi context now s).2) = S (length (compilers s))
  ∧ compilerCache (getCompilerApi context now s).2 =
      set (contextToAppId context) (length (compilers s)) now (compilerCache s).
Proof.
  intros H. pose proof (get_miss _ _ _ H) as Hc. unfold Core.getCompilerApi.
  destruct (get (contextToAppId context) now (compilerCache s)) as [hit cache].
  cbn [fst snd] in H, Hc. subst hit cache. cbn [fst snd compilers compilerCache].
  split; [done|]. split; [|done].
  rewrite length_alter, length_app. simpl. lia.
Qed.

(** After a call the entry of the key is the most recently used one and
    holds the object returned. *)
Lemma getCompilerApi_front (context : Ctx) now (s : Core.state Ctx) :
  0 < max (compilerCache s) →
  let r := getCompilerApi context now s in
  ∃ e l, entries (compilerCache r.2) = e :: l
         ∧ key e = contextToAppId context ∧ val e = r.1
         ∧ max (compilerCache r.2) = max (compilerCache s)
         ∧ maxAge (compilerCache r.2) = maxAge (compilerCache s).
Proof.
  intros Hmax r. subst r.
  destruct (get (contextToAppId context) now (compilerCache s)).1 as [a|] eqn:Hget.
  - destruct (getCompilerApi_hit _ _ _ _ Hget) as (Ha & _ & Hc).
    rewrite Hc, Ha, get_max, get_maxAge.
    apply get_hit in Hget as (e & _ & _ & _ & He).
    eexists _, _. split; [exact He|]. done.
  - destruct (getCompilerApi_miss _ _ _ Hget) as (Ha & _ & Hc).
    rewrite Hc, Ha, entries_set.
    destruct (max (compilerCache s)) as [|n] eqn:Hm; [lia|].
    eexists _, _. split; [reflexivity|]. cbn. by rewrite Hm.
Qed.

Lemma getOrchestratorApi_hit (context : Ctx) (s : Core.state Ctx) api :
  orchestratorStorage s !! contextToOrchestratorId context = Some api →
  getOrchestratorApi context s = (api, s).
Proof. unfold Core.getOrchestratorApi. by intros ->. Qed.

Lemma getOrchestratorApi_stored (context : Ctx) (s : Core.state Ctx) :
  orchestratorStorage (getOrchestratorApi context s).2
    !! contextToOrchestratorId context = Some (getOrchestratorApi context s).1.
Proof.
  unfold Core.getOrchestratorApi.
  destruct (orchestratorStorage s !! contextToOrchestratorId context) eqn:H;
    cbn [fst snd orchestratorStorage]; [done | by rewrite lookup_insert_eq].
Qed.

(** The registry only grows under [getOrchestratorApi]. *)
Lemma getOrchestratorApi_keeps (context : Ctx) (s : Core.state Ctx) k api :
  orchestratorStorage s !! k = Some api →
  orchestratorStorage (getOrchestratorApi context s).2 !! k = Some api.
Proof.
  intros Hk. unfold Core.getOrchestratorApi.
  destruct (orchestratorStorage s !! contextToOrchestratorId context) eqn:H;
    cbn [snd orchestratorStorage]; [done|].
  rewrite lookup_insert_ne; [done | congruence].
Qed.

Lemma getOrchestratorApi_many_keep (mid : list Ctx) (s : Core.state Ctx) k api :
  orchestratorStorage s !! k = Some api →
  orchestratorStorage (foldl (λ s c, (getOrchestratorApi c s).2) s mid) !! k = Some api.
Proof.
  revert s. induction mid as [|c mid IH]; intros s Hk; [done|].
  simpl. apply IH. by apply getOrchestratorApi_keeps.
Qed.

Local Abbreviation perform := (Core.perform contextToAppId contextToOrchestratorId).
Local Abbreviation performAll := (Core.performAll contextToAppId contextToOrchestratorId).
Local Abbreviation requested := (Core.requested contextToAppId).
Local Abbreviation configured := (Core.configured (Ctx:=Ctx)).
Local Abbreviation cached_behind := (Core.cached_behind (Ctx:=Ctx)).

Lemma getOrchestratorApi_cache (context : Ctx) (s : Core.state Ctx) :
  compilerCache (getOrchestratorApi context s).2 = compilerCache s.
Proof.
  unfold Core.getOrchestratorApi.
  by destruct (orchestratorStorage s !! contextToOrchestratorId context).
Qed.

Lemma getCompilerApi_registry (context : Ctx) now (s : Core.state Ctx) :
  orchestratorStorage (getCompilerApi context now s).2 = orchestratorStorage s.
Proof.
  unfold Core.getCompilerApi.
  destruct (get (contextToAppId context) now (compilerCache s)) as [[a|] cache]; done.
Qed.

(** The cache after a call: the entry of the key comes first, the other
    entries follow in their order, up to the capacity. *)
Lemma getCompilerApi_entries (context : Ctx) now (s : Core.state Ctx) :
  length (entries (compilerCache s)) ≤ max (compilerCache s) →
  let r := getCompilerApi context now s in
  ∃ e, key e = contextToAppId context ∧ val e = r.1
       ∧ entries (compilerCache r.2) =
           take (max (compilerCache s))
             (e :: remove (contextToAppId context) (entries (compilerCache s))).
Proof.
  intros Hlen r. subst r.
  destruct (get (contextToAppId context) now (compilerCache s)).1 as [a|] eqn:Hget.
  - destruct (getCompilerApi_hit _ _ _ _ Hget) as (Ha & _ & Hc).
    rewrite Hc, Ha.
    apply get_hit in Hget as (e & Hf & _ & _ & He). rewrite He.
    exists (mkEntry (contextToAppId context) a
              (if updateAgeOnGet (compilerCache s) then now else stamp e)).
    split; [done|]. split; [done|].
    rewrite take_ge; [done|]. cbn [length].
    pose proof (remove_length _ _ _ Hf). lia.
  - destruct (getCompilerApi_miss _ _ _ Hget) as (Ha & _ & Hc).
    rewrite Hc, Ha, entries_set.
    by exists (mkEntry (contextToAppId context) (length (compilers s)) now).
Qed.

(** Entries of the other tenants are never created by a call. *)
Lemma getCompilerApi_others (context : Ctx) now (s : Core.state Ctx) e :
  e ∈ entries (compilerCache (getCompilerApi context now s).2) →
  key e ≠ contextToAppId context →
  e ∈ entries (compilerCache s).
Proof.
  intros He Hk.
  destruct (get (contextToAppId context) now (compilerCache s)).1 as [a|] eqn:Hget.
  - destruct (getCompilerApi_hit _ _ _ _ Hget) as (_ & _ & Hc). rewrite Hc in He.
    apply get_hit in Hget as (e0 & _ & _ & _ & He0). rewrite He0 in He.
    apply elem_of_cons in He as [->|He]; [done|].
    unfold remove in He. by apply list_elem_of_filter in He as [_ ?].
  - destruct (getCompilerApi_miss _ _ _ Hget) as (_ & _ & Hc). rewrite Hc in He.
    rewrite entries_set in He. apply elem_of_take in He as (i & Hi & _).
    apply list_elem_of_lookup_2 in Hi.
    apply elem_of_cons in Hi as [->|Hi]; [done|].
    unfold remove in Hi. by apply list_elem_of_filter in Hi as [_ ?].
Qed.

(** The settings of the cache never change. *)
Lemma getCompilerApi_settings (context : Ctx) now (s : Core.state Ctx) :
  let c' := compilerCache (getCompilerApi context now s).2 in
  max c' = max (compilerCache s)
  ∧ maxAge c' = maxAge (compilerCache s)
  ∧ updateAgeOnGet c' = updateAgeOnGet (compilerCache s).
Proof.
  cbv zeta.
  destruct (get (contextToAppId context) now (compilerCache s)).1 as [a|] eqn:Hget.
  - destruct (getCompilerApi_hit _ _ _ _ Hget) as (_ & _ & ->).
    by rewrite get_max, get_maxAge, get_updateAgeOnGet.
  - by destruct (getCompilerApi_miss _ _ _ Hget) as (_ & _ & ->).
Qed.

Lemma perform_settings a (s : Core.state Ctx) :
  max (compilerCache (perform a s)) = max (compilerCache s)
  ∧ maxAge (compilerCache (perform a s)) = maxAge (compilerCache s)
  ∧ updateAgeOnGet (compilerCache (perform a s)) = updateAgeOnGet (compilerCache s).
Proof.
  destruct a as [context now|context|now]; cbn [Core.perform].
  - apply getCompilerApi_settings.
  - by rewrite getOrchestratorApi_cache.
  - done.
Qed.

Lemma perform_length a (s : Core.state Ctx) :
  length (entries (compilerCache s)) ≤ max (compilerCache s) →
  length (entries (compilerCache (perform a s))) ≤ max (compilerCache s).
Proof.
  intros Hlen. destruct a as [context now|context|now]; cbn [Core.perform].
  - destruct (getCompilerApi_entries context now s Hlen) as (e & _ & _ & ->).
    rewrite length_take. lia.
  - by rewrite getOrchestratorApi_cache.
  - cbn. etrans; [apply length_filter|done].
Qed.

Lemma configured_create o : configured o (Core.create o).
Proof. unfold Core.configured. cbn. repeat split; lia. Qed.

Lemma configured_perform o a s : configured o s → configured o (perform a s).
Proof.
  unfold Core.configured. intros (Hm & Ha & Hu & Hl).
  destruct (perform_settings a s) as (-> & -> & ->).
  split; [done|]. split; [done|]. split; [done|]. by apply perform_length.
Qed.

Lemma configured_performAll o acts s :
  configured o s → configured o (performAll acts s).
Proof.
  revert s. induction acts as [|a acts IH]; intros s H; [done|].
  cbn. apply IH. by apply configured_perform.
Qed.

Lemma configured_max_pos o s : configured o s → 0 < max (compilerCache s).
Proof.
  intros (-> & _). unfold cache_max, truthy_num.
  destruct (compilerCacheSize o) as [n|]; cbn; [|lia].
  case_bool_decide; cbn; lia.
Qed.

Lemma requested_cons a acts x :
  x ∈ requested (a :: acts) ↔ x ∈ requested [a] ∨ x ∈ requested acts.
Proof.
  unfold Core.requested. rewrite !list_elem_of_omap. split.
  - intros (y & Hy & Hf). apply elem_of_cons in Hy as [->|Hy].
    + left. exists a. split; [left|done].
    + right. by exists y.
  - intros [(y & Hy & Hf)|(y & Hy & Hf)].
    + apply list_elem_of_singleton in Hy as ->. exists a. split; [left|done].
    + exists y. split; [by right|done].
Qed.

Lemma sweeps_cons (a : Core.action Ctx) acts x :
  x ∈ Core.sweeps (a :: acts) ↔ x ∈ Core.sweeps [a] ∨ x ∈ Core.sweeps acts.
Proof.
  unfold Core.sweeps. rewrite !list_elem_of_omap. split.
  - intros (y & Hy & Hf). apply elem_of_cons in Hy as [->|Hy].
    + left. exists a. split; [left|done].
    + right. by exists y.
  - intros [(y & Hy & Hf)|(y & Hy & Hf)].
    + apply list_elem_of_singleton in Hy as ->. exists a. split; [left|done].
    + exists y. split; [by right|done].
Qed.

(** Requests of other tenants, of which there are fewer than the
    capacity, and sweeps at which the entry is not expired, leave the
    entry of a tenant in the cache, with its object and its stamp. *)
Lemma cached_behind_perform K k a st act (s : Core.state Ctx) :
  k ∉ K →
  (∀ x, x ∈ requested [act] → x ∈ K) →
  (∀ t age, t ∈ Core.sweeps [act] → maxAge (compilerCache s) = Some age →
            ¬ (age < t - st)%Z) →
  length (remove_dups K) < max (compilerCache s) →
  cached_behind K k a st s →
  cached_behind K k a st (perform act s).
Proof.
  intros HkK Hreq Hsw Hcap (l1 & e & l2 & He & Hk & Hv & Hs & Hnd & HK).
  destruct act as [context now|context|now]; cbn [Core.perform].
  - assert (Hin : contextToAppId context ∈ K) by (apply Hreq; cbn; left).
    assert (Hne : key e ≠ contextToAppId context) by congruence.
    assert (Hnd' : ∀ e', key e' = contextToAppId context →
              NoDup (key <$> e' :: remove (contextToAppId context) l1)).
    { intros e' He'. cbn [fmap list_fmap]. apply NoDup_cons. split.
      - rewrite He'. apply remove_no_key.
      - by apply NoDup_keys_filter. }
    assert (HK' : ∀ e', key e' = contextToAppId context →
              ∀ x, x ∈ e' :: remove (contextToAppId context) l1 → key x ∈ K).
    { intros e' He' x Hx. apply elem_of_cons in Hx as [->|Hx]; [by rewrite He'|].
      unfold remove in Hx. apply list_elem_of_filter in Hx as [_ Hx]. by apply HK. }
    destruct (get (contextToAppId context) now (compilerCache s)).1 as [a'|] eqn:Hget.
    + destruct (getCompilerApi_hit _ _ _ _ Hget) as (_ & _ & Hc).
      apply get_hit in Hget as (e0 & _ & _ & _ & He0).
      exists (mkEntry (contextToAppId context) a'
                (if updateAgeOnGet (compilerCache s) then now else stamp e0)
              :: remove (contextToAppId context) l1), e,
             (remove (contextToAppId context) l2).
      split.
      { rewrite Hc, He0, He, remove_app, remove_cons_ne by done. done. }
      split; [done|]. split; [done|]. split; [done|].
      split; [by apply Hnd' | by apply HK'].
    + destruct (getCompilerApi_miss _ _ _ Hget) as (_ & _ & Hc).
      set (e' := mkEntry (contextToAppId context) (length (compilers s)) now).
      pose proof (keys_bound K _ (Hnd' e' eq_refl) (HK' e' eq_refl)) as Hb.
      exists (e' :: remove (contextToAppId context) l1), e,
             (take (max (compilerCache s)
                    - S (length (e' :: remove (contextToAppId context) l1)))
                (remove (contextToAppId context) l2)).
      split.
      { rewrite Hc, entries_set, He, remove_app, remove_cons_ne by done.
        fold e'. rewrite app_comm_cons, take_app, take_ge by lia.
        f_equal.
        destruct (max (compilerCache s)
                  - length (e' :: remove (contextToAppId context) l1)) as [|m] eqn:Hm;
          [lia|]. cbn [take]. f_equal. f_equal. lia. }
      split; [done|]. split; [done|]. split; [done|].
      split; [by apply Hnd' | by apply HK'].
  - unfold Core.cached_behind. rewrite getOrchestratorApi_cache.
    by exists l1, e, l2.
  - assert (Hfresh : stale (compilerCache s) now e = false).
    { unfold stale. destruct (maxAge (compilerCache s)) as [age|] eqn:Hage; [|done].
      apply bool_decide_eq_false. rewrite Hs. apply Hsw; [cbn; left | done]. }
    exists (filter (λ e, stale (compilerCache s) now e = false) l1), e,
           (filter (λ e, stale (compilerCache s) now e = false) l2).
    split.
    { cbn. rewrite He, filter_app, filter_cons_True by done. done. }
    split; [done|]. split; [done|]. split; [done|].
    split; [by apply NoDup_keys_filter|].
    intros x Hx. apply list_elem_of_filter in Hx as [_ Hx]. by apply HK.
Qed.

Lemma cached_behind_performAll K k a st acts : ∀ s : Core.state Ctx,
  k ∉ K →
  (∀ x, x ∈ requested acts → x ∈ K) →
  (∀ t age, t ∈ Core.sweeps acts → maxAge (compilerCache s) = Some age →
            ¬ (age < t - st)%Z) →
  length (remove_dups K) < max (compilerCache s) →
  cached_behind K k a st s →
  cached_behind K k a st (performAll acts s)
  ∧ maxAge (compilerCache (performAll acts s)) = maxAge (compilerCache s).
Proof.
  induction acts as [|act acts IH]; intros s HkK Hreq Hsw Hcap Hinv; [done|].
  cbn [Core.performAll foldl].
  destruct (perform_settings act s) as (Hm & Ha & _).
  destruct (IH (perform act s)) as [H1 H2]; try done.
  - intros x Hx. apply Hreq, requested_cons. by right.
  - intros t age Ht. rewrite Ha. apply Hsw, sweeps_cons. by right.
  - by rewrite Hm.
  - apply cached_behind_perform; try done.
    + intros x Hx. apply Hreq, requested_cons. by left.
    + intros t age Ht. apply Hsw, sweeps_cons. by left.
  - split; [exact H1|]. etrans; [exact H2 | exact Ha].
Qed.

(** An entry of a tenant that is not requested keeps its stamp. *)
Lemma stamps_perform k t0 act (s : Core.state Ctx) :
  k ∉ requested [act] →
  (∀ e, e ∈ entries (compilerCache s) → key e = k → stamp e = t0) →
  (∀ e, e ∈ entries (compilerCache (perform act s)) → key e = k → stamp e = t0).
Proof.
  intros Hk Hinv e He Hke.
  destruct act as [context now|context|now]; cbn [Core.perform] in He.
  - apply Hinv; [|done]. apply (getCompilerApi_others context now); [done|].
    intros Heq. apply Hk. cbn. rewrite <- Heq, Hke. left.
  - rewrite getOrchestratorApi_cache in He. by apply Hinv.
  - apply elem_of_prune in He as [He _]. by apply Hinv.
Qed.

Lemma stamps_performAll k t0 acts : ∀ s : Core.state Ctx,
  k ∉ requested acts →
  (∀ e, e ∈ entries (compilerCache s) → key e = k → stamp e = t0) →
  (∀ e, e ∈ entries (compilerCache (performAll acts s)) → key e = k → stamp e = t0).
Proof.
  induction acts as [|act acts IH]; intros s Hk Hinv; [done|].
  cbn [Core.performAll foldl]. apply IH.
  - intros H. apply Hk, requested_cons. by right.
  - apply stamps_perform; [|done]. intros H. apply Hk, requested_cons. by left.
Qed.

Lemma performAll_maxAge acts (s : Core.state Ctx) :
  maxAge (compilerCache (performAll acts s)) = maxAge (compilerCache s).
Proof.
  revert s. induction acts as [|a acts IH]; intros s; [done|].
  etrans; [apply (IH (perform a s))|].
  by destruct (perform_settings a s) as (_ & -> & _).
Qed.

Lemma performAll_registry acts (s : Core.state Ctx) k api :
  orchestratorStorage s !! k = Some api →
  orchestratorStorage (performAll acts s) !! k = Some api.
Proof.
  revert s. induction acts as [|a acts IH]; intros s Hk; [done|].
  cbn [Core.performAll foldl]. apply IH.
  destruct a as [context now|context|now]; cbn [Core.perform].
  - by rewrite getCompilerApi_registry.
  - by apply getOrchestratorApi_keeps.
  - done.
Qed.

(** With capacity 2 and no max-age, three calls for three tenants leave
    the entries of the last two, most recent first. *)
Lemma three_tenants (ctxa ctxb ctxc : Ctx) (ta tb tc : Z) (s : Core.state Ctx) :
  contextToAppId ctxa ≠ contextToAppId ctxb →
  contextToAppId ctxa ≠ contextToAppId ctxc →
  contextToAppId ctxb ≠ contextToAppId ctxc →
  max (compilerCache s) = 2 →
  length (entries (compilerCache s)) ≤ 2 →
  let ra := getCompilerApi ctxa ta s in
  let rb := getCompilerApi ctxb tb ra.2 in
  let rc := getCompilerApi ctxc tc rb.2 in
  ∃ ec eb, entries (compilerCache rc.2) = [ec; eb]
           ∧ key ec = contextToAppId ctxc ∧ val ec = rc.1
           ∧ key eb = contextToAppId ctxb ∧ val eb = rb.1.
Proof.
  intros Hab Hac Hbc Hmax Hlen ra rb rc.
  destruct (getCompilerApi_entries ctxa ta s) as (ea & Hka & _ & Ha); [lia|].
  fold ra in Ha. rewrite Hmax in Ha. cbn [take] in Ha.
  destruct (getCompilerApi_settings ctxa ta s) as (Hma & _). fold ra in Hma.
  destruct (getCompilerApi_entries ctxb tb ra.2) as (eb & Hkb & Hvb & Hb).
  { rewrite Hma, Hmax, Ha. cbn [length]. rewrite length_take. lia. }
  fold rb in Hb, Hvb. rewrite Hma, Hmax, Ha in Hb.
  rewrite remove_cons_ne in Hb by congruence. cbn [take] in Hb.
  rewrite take_0 in Hb.
  destruct (getCompilerApi_settings ctxb tb ra.2) as (Hmb & _). fold rb in Hmb.
  destruct (getCompilerApi_entries ctxc tc rb.2) as (ec & Hkc & Hvc & Hc).
  { rewrite Hmb, Hma, Hmax, Hb. cbn. lia. }
  fold rc in Hc, Hvc. rewrite Hmb, Hma, Hmax, Hb in Hc.
  rewrite !remove_cons_ne in Hc by congruence. cbn [take] in Hc.
  rewrite ?take_0 in Hc.
  by exists ec, eb.
Qed.

(** C6: the compiler cache of the coordinator has, at all times, the
    capacity read from [compilerCacheSize], 250 when that is unset (or
    0), and the keep-alive-on-read setting read from
    [updateCompilerCacheKeepAlive], off when unset; it never holds more
    entries than its capacity.  A request that hits returns the cached
    object, moves its entry to the most recently used position and,
    with keep-alive on read, refreshes its age, and otherwise leaves the
    age as it was; a request that misses on a full cache evicts the
    least recently used entry.  With capacity 2, after requests for the
    tenants [a], [b], [c] in this order, [a] is a miss, and is compiled
    anew when requested, and [b] and [c] are hits. *)
Theorem C6_compilerCache_capacity_lru (o : Core.options)
    (acts : list (Core.action Ctx)) (ctxa ctxb ctxc : Ctx) (ta tb tc now : Z) :
  let s := performAll acts (Core.create o) in
  let cache := compilerCache s in
  let keepAlive := default false (updateCompilerCacheKeepAlive o) in
  let ra := getCompilerApi ctxa ta s in
  let rb := getCompilerApi ctxb tb ra.2 in
  let rc := getCompilerApi ctxc tc rb.2 in
  (max cache = match compilerCacheSize o with
               | Some n => if bool_decide (n = 0%N) then 250 else N.to_nat n
               | None => 250
               end
   ∧ updateAgeOnGet cache = keepAlive
   ∧ length (entries cache) ≤ max cache)
  ∧ (∀ ctx t a,
       (get (contextToAppId ctx) t cache).1 = Some a →
       (getCompilerApi ctx t s).1 = a
       ∧ ∃ e, find (contextToAppId ctx) (entries cache) = Some e ∧ val e = a
              ∧ entries (compilerCache (getCompilerApi ctx t s).2) =
                  mkEntry (contextToAppId ctx) a (if keepAlive then t else stamp e)
                    :: remove (contextToAppId ctx) (entries cache))
  ∧ (∀ ctx t,
       find (contextToAppId ctx) (entries cache) = None →
       length (entries cache) = max cache →
       entries (compilerCache (getCompilerApi ctx t s).2) =
         mkEntry (contextToAppId ctx) (length (compilers s)) t
           :: removelast (entries cache))
  ∧ (contextToAppId ctxa ≠ contextToAppId ctxb →
     contextToAppId ctxa ≠ contextToAppId ctxc →
     contextToAppId ctxb ≠ contextToAppId ctxc →
     compilerCacheSize o = Some 2%N →
     maxCompilerCacheKeepAlive o = None →
     (get (contextToAppId ctxa) now (compilerCache rc.2)).1 = None
     ∧ (get (contextToAppId ctxb) now (compilerCache rc.2)).1 = Some rb.1
     ∧ (get (contextToAppId ctxc) now (compilerCache rc.2)).1 = Some rc.1
     ∧ (getCompilerApi ctxa now rc.2).1 = length (compilers rc.2)).
Proof.
  intros s cache keepAlive ra rb rc.
  pose proof (configured_performAll o acts _ (configured_create o)) as Hcfg.
  fold s in Hcfg. pose proof (configured_max_pos o s Hcfg) as Hpos.
  destruct Hcfg as (Hm & Ha & Hu & Hl). fold cache in Hm, Ha, Hu, Hl, Hpos.
  split; [|split; [|split]].
  - split; [|by split]. rewrite Hm. unfold cache_max, truthy_num.
    destruct (compilerCacheSize o) as [n|]; [|done]. by case_bool_decide.
  - intros ctx t a Hget.
    destruct (getCompilerApi_hit _ _ _ _ Hget) as (Hr & _ & Hc).
    split; [done|]. rewrite Hc. fold cache in Hget |- *.
    apply get_hit in Hget as (e & Hf & Hv & _ & He).
    exists e. split; [done|]. split; [done|]. by rewrite He, Hu.
  - intros ctx t Hf Hfull.
    assert (Hget : (get (contextToAppId ctx) t cache).1 = None)
      by (unfold get; by rewrite Hf).
    destruct (getCompilerApi_miss _ _ _ Hget) as (_ & _ & ->).
    by apply set_evicts_last.
  - intros Hab Hac Hbc Hsize Hage.
    assert (Hmax : max cache = 2).
    { rewrite Hm. unfold cache_max. by rewrite Hsize. }
    assert (HnoAge : maxAge cache = None) by (by rewrite Ha, Hage).
    destruct (three_tenants ctxa ctxb ctxc ta tb tc s Hab Hac Hbc Hmax)
      as (ec & eb & He & Hkc & Hvc & Hkb & Hvb); [fold cache; lia|].
    fold ra rb rc in He, Hvc, Hvb.
    assert (HnoAge' : maxAge (compilerCache rc.2) = None).
    { subst rc rb ra.
      destruct (getCompilerApi_settings ctxc tc
                  (getCompilerApi ctxb tb (getCompilerApi ctxa ta s).2).2) as (_ & -> & _).
      destruct (getCompilerApi_settings ctxb tb (getCompilerApi ctxa ta s).2)
        as (_ & -> & _).
      by destruct (getCompilerApi_settings ctxa ta s) as (_ & -> & _). }
    assert (Hmiss : (get (contextToAppId ctxa) now (compilerCache rc.2)).1 = None).
    { unfold get. rewrite He, !find_cons_ne by congruence. done. }
    split; [done|]. split; [|split].
    + unfold get. rewrite He, find_cons_ne, (find_cons_eq _ eb []) by congruence.
      unfold stale. by rewrite HnoAge', Hvb.
    + unfold get. rewrite He, (find_cons_eq _ ec [eb]) by congruence.
      unfold stale. by rewrite HnoAge', Hvc.
    + by destruct (getCompilerApi_miss _ _ _ Hmiss) as (? & _).
Qed.

(** C7: with [maxCompilerCacheKeepAlive] configured, the cache of the
    coordinator has that max-age at all times and the sweep timer is
    started with the same period.  No lookup returns an entry older than
    the max-age; a firing of the sweep timer keeps exactly the entries
    that are not expired; and an entry inserted by a request at time
    [t0] is a miss at any time more than the max-age later, so that the
    tenant is compiled anew, whatever sweeps and requests of other
    tenants happened in between. *)
Theorem C7_compilerCache_expiry (o : Core.options) (T : N)
    (acts mid : list (Core.action Ctx)) (ctx ctx' : Ctx) (t0 t : Z) :
  let s := performAll acts (Core.create o) in
  let s1 := (getCompilerApi ctx t0 s).2 in
  let s2 := performAll mid s1 in
  maxCompilerCacheKeepAlive o = Some T →
  T ≠ 0%N →
  (get (contextToAppId ctx) t0 (compilerCache s)).1 = None →
  contextToAppId ctx ∉ requested mid →
  contextToAppId ctx' = contextToAppId ctx →
  (Z.of_N T < t - t0)%Z →
  ((get (contextToAppId ctx) t (compilerCache s2)).1 = None
   ∧ (getCompilerApi ctx' t s2).1 = length (compilers s2)
   ∧ length (compilers (getCompilerApi ctx' t s2).2) = S (length (compilers s2)))
  ∧ maxAge (compilerCache s) = Some (Z.of_N T)
  ∧ new_maxCompilerCacheKeep o = Some T
  ∧ (∀ k' t' a, (get k' t' (compilerCache s)).1 = Some a →
       ∃ e, e ∈ entries (compilerCache s) ∧ key e = k' ∧ val e = a
            ∧ (t' - stamp e ≤ Z.of_N T)%Z)
  ∧ (∀ t' e, e ∈ entries (compilerCache (Core.sweep t' s)) ↔
             e ∈ entries (compilerCache s) ∧ ¬ (Z.of_N T < t' - stamp e)%Z).
Proof.
  intros s s1 s2 HT Hnz Hins Hmid Hsame Hlate.
  pose proof (configured_performAll o acts _ (configured_create o)) as Hcfg.
  fold s in Hcfg. destruct Hcfg as (_ & Ha & _ & _).
  assert (Hage : maxAge (compilerCache s) = Some (Z.of_N T)).
  { rewrite Ha, HT. cbn. by case_bool_decide. }
  assert (Hmiss : (get (contextToAppId ctx) t (compilerCache s2)).1 = None).
  { destruct (get _ t _).1 as [a|] eqn:Hget; [|done]. exfalso.
    apply get_hit_fresh in Hget as (e & He & Hk & _ & Hfresh).
    assert (Hage2 : maxAge (compilerCache s2) = Some (Z.of_N T)).
    { subst s2 s1. rewrite performAll_maxAge.
      by destruct (getCompilerApi_settings ctx t0 s) as (_ & -> & _). }
    specialize (Hfresh _ Hage2).
    assert (Hst : stamp e = t0); [|lia].
    apply (stamps_performAll (contextToAppId ctx) t0 mid s1 Hmid); [|done|done].
    intros e' He' Hk'. subst s1.
    destruct (getCompilerApi_miss _ _ _ Hins) as (_ & _ & Hc). rewrite Hc in He'.
    by rewrite (set_stamp _ _ _ _ _ He' Hk'). }
  split; [|split; [done|split; [|split]]].
  - split; [done|]. rewrite <- Hsame in Hmiss.
    by destruct (getCompilerApi_miss _ _ _ Hmiss) as (? & ? & _).
  - unfold new_maxCompilerCacheKeep. rewrite HT. cbn. by case_bool_decide.
  - intros k' t' a H. apply get_hit_fresh in H as (e & ? & ? & ? & Hf).
    exists e. split; [done|]. split; [done|]. split; [done|]. by apply Hf.
  - intros t' e. cbn [Core.sweep compilerCache]. rewrite elem_of_prune.
    unfold stale. rewrite Hage, bool_decide_eq_false. tauto.
Qed.


End CoordinatorFacts.

(** Capacity 2 and three tenants on a fresh coordinator. *)
Lemma C6_compilerCache_capacity_lru_witness :
  let tenant := λ ctx : string * nat, ctx.1 in
  let o := Core.mkOptions (Some 2%N) None (Some true) false in
  let s := Core.performAll tenant tenant
             [Core.GetCompilerApi ("A", 1) 10%Z; Core.GetCompilerApi ("B", 1) 20%Z;
              Core.GetCompilerApi ("C", 1) 30%Z] (Core.create o) in
  LRU.max (Core.compilerCache s) = 2
  ∧ LRU.updateAgeOnGet (Core.compilerCache s) = true
  ∧ (LRU.get "A" 40%Z (Core.compilerCache s)).1 = None
  ∧ (LRU.get "B" 40%Z (Core.compilerCache s)).1 = Some 1
  ∧ (LRU.get "C" 40%Z (Core.compilerCache s)).1 = Some 2
  ∧ (Core.getCompilerApi tenant ("A", 2) 40%Z s).1 = 3.
Proof.
  pose proof (C6_compilerCache_capacity_lru (λ ctx : string * nat, ctx.1)
                (λ ctx : string * nat, ctx.1)
                (Core.mkOptions (Some 2%N) None (Some true) false)) as H.
  destruct (H [Core.GetCompilerApi ("A", 1) 10%Z; Core.GetCompilerApi ("B", 1) 20%Z;
               Core.GetCompilerApi ("C", 1) 30%Z]
              ("A", 1) ("B", 1) ("C", 1) 0%Z 0%Z 0%Z 0%Z)
    as ((H1 & H2 & _) & _).
  destruct (H [] ("A", 1) ("B", 1) ("C", 1) 10%Z 20%Z 30%Z 40%Z)
    as (_ & _ & _ & H4).
  destruct (H4 ltac:(discriminate) ltac:(discriminate) ltac:(discriminate)
              eq_refl eq_refl) as (Ha & Hb & Hc & Hd).
  exact (conj H1 (conj H2 (conj Ha (conj Hb (conj Hc Hd))))).
Defined.

(** A max-age of one second: tenant "acme", compiled at time 0, is
    compiled anew at time 1001, sweeps and another tenant in between. *)
Lemma C7_compilerCache_expiry_witness :
  let tenant := λ ctx : string * nat, ctx.1 in
  let o := Core.mkOptions None (Some 1000%N) None false in
  let s1 := (Core.getCompilerApi tenant ("acme", 1) 0%Z (Core.create o)).2 in
  let s2 := Core.performAll tenant tenant
              [Core.Sweep 500%Z; Core.GetCompilerApi ("globex", 1) 600%Z;
               Core.Sweep 1000%Z] s1 in
  (LRU.get "acme" 1001%Z (Core.compilerCache s2)).1 = None
  ∧ (Core.getCompilerApi tenant ("acme", 2) 1001%Z s2).1 = 2
  ∧ Core.new_maxCompilerCacheKeep o = Some 1000%N.
Proof.
  destruct (C7_compilerCache_expiry (λ ctx : string * nat, ctx.1)
              (λ ctx : string * nat, ctx.1)
              (Core.mkOptions None (Some 1000%N) None false) 1000%N []
              [Core.Sweep 500%Z; Core.GetCompilerApi ("globex", 1) 600%Z;
               Core.Sweep 1000%Z]
              ("acme", 1) ("acme", 2) 0%Z 1001%Z
              eq_refl ltac:(discriminate) eq_refl
              ltac:(vm_compute; intros H; apply list_elem_of_singleton in H; discriminate)
              eq_refl ltac:(reflexivity))
    as ((H1 & H2 & _) & _ & H3 & _).
  exact (conj H1 (conj H2 H3)).
Defined.


(** ** Background contexts *)

Section ContextFacts.
Import Context.

(** C4, the claim as stated fails: a context with both fields set to
    different values has its [securityContext] overwritten, and a context
    with neither field set is mapped to [null]. *)
Lemma C4_both_or_neither_not_passed_through :
  let both := mkContext (VStr "legacy") (VStr "current") [] in
  let neither := mkContext VUndefined VUndefined [("tenant", VStr "acme")] in
  (migrateBackgroundContext (Some both) init).1
    = Some (mkContext (VStr "legacy") (VStr "legacy") [])
  ∧ (migrateBackgroundContext (Some both) init).1 ≠ Some both
  ∧ (migrateBackgroundContext (Some neither) init).1 = None
  ∧ (migrateBackgroundContext (Some neither) init).1 ≠ Some neither.
Proof. vm_compute. repeat split; congruence. Qed.

(** C4 (as amended): [null] is mapped to [null]; a context with only
    [securityContext] set gets [authInfo] synthesized with the same
    value; a context with [authInfo] set gets [securityContext] replaced
    by the value of [authInfo] (synthesized if it was unset, overwritten
    if both were set, hence unchanged when both already agree); a context
    with neither field set is mapped to [null].  The other properties of
    the context are kept. *)
Theorem C4_migrateBackgroundContext (ctx : UserBackgroundContext) (s : Context.state) :
  (migrateBackgroundContext None s).1 = None
  ∧ (truthy (securityContext ctx) = true → truthy (authInfo ctx) = false →
       (migrateBackgroundContext (Some ctx) s).1
       = Some (mkContext (securityContext ctx) (securityContext ctx) (others ctx)))
  ∧ (truthy (authInfo ctx) = true →
       (migrateBackgroundContext (Some ctx) s).1
       = Some (mkContext (authInfo ctx) (authInfo ctx) (others ctx)))
  ∧ (truthy (authInfo ctx) = true → securityContext ctx = authInfo ctx →
       (migrateBackgroundContext (Some ctx) s).1 = Some ctx)
  ∧ (truthy (authInfo ctx) = false → truthy (securityContext ctx) = false →
       (migrateBackgroundContext (Some ctx) s).1 = None).
Proof.
  unfold migrateBackgroundContext.
  split; [done|]. split; [|split; [|split]].
  - by intros -> ->.
  - intros ->. rewrite andb_false_r. done.
  - intros Ha Heq. rewrite Ha, andb_false_r. cbn [fst].
    destruct ctx as [a sc o]. cbn in *. by subst.
  - by intros -> ->.
Qed.

Lemma C4_migrateBackgroundContext_witness :
  (migrateBackgroundContext (Some (mkContext VUndefined (VStr "y") [])) init).1
    = Some (mkContext (VStr "y") (VStr "y") [])
  ∧ (migrateBackgroundContext (Some (mkContext (VStr "x") VUndefined [])) init).1
    = Some (mkContext (VStr "x") (VStr "x") [])
  ∧ (migrateBackgroundContext (Some (mkContext (VStr "x") (VStr "x") [])) init).1
    = Some (mkContext (VStr "x") (VStr "x") [])
  ∧ (migrateBackgroundContext (Some (mkContext VNull VUndefined [])) init).1 = None.
Proof.
  exact (conj
    (proj1 (proj2 (C4_migrateBackgroundContext
       (mkContext VUndefined (VStr "y") []) init)) eq_refl eq_refl)
    (conj
      (proj1 (proj2 (proj2 (C4_migrateBackgroundContext
         (mkContext (VStr "x") VUndefined []) init))) eq_refl)
      (conj
        (proj1 (proj2 (proj2 (proj2 (C4_migrateBackgroundContext
           (mkContext (VStr "x") (VStr "x") []) init)))) eq_refl eq_refl)
        (proj2 (proj2 (proj2 (proj2 (C4_migrateBackgroundContext
           (mkContext VNull VUndefined []) init)))) eq_refl eq_refl)))).
Defined.

(** The flag is never raised: a call leaves it down if it was down. *)
Lemma migrate_flag_down ctx s :
  warningBackgroundContextShow s = false →
  (migrateBackgroundContext ctx s).2 = s.
Proof.
  intros Hf. unfold migrateBackgroundContext.
  destruct ctx as [c|]; [|done].
  destruct (truthy (securityContext c) && negb (truthy (authInfo c))); [done|].
  destruct (truthy (authInfo c)); [|done]. by rewrite Hf.
Qed.

Lemma migrateAll_flag_down ctxs s :
  warningBackgroundContextShow s = false →
  (migrateAll ctxs s).2 = s.
Proof.
  intros Hf. induction ctxs as [|c cs IH]; [done|]. cbn [migrateAll].
  pose proof (migrate_flag_down c s Hf) as H1.
  destruct (migrateBackgroundContext c s) as [r s1]. cbn [snd] in H1. subst s1.
  destruct (migrateAll cs s) as [rs s2]. by cbn [snd] in *.
Qed.

(** C5, what the code does: [warningBackgroundContextShow] starts as
    [false] and the diagnostic is emitted only when it is [true], so no
    sequence of calls on a new instance ever emits "auth_info_deprecation",
    not even the first call with a legacy [authInfo] context. *)
Theorem C5_deprecation_never_emitted (ctxs : list (option UserBackgroundContext)) :
  (migrateAll ctxs init).2 = init
  ∧ emissions (migrateAll ctxs init).2 = 0
  ∧ (migrateAll [Some (mkContext (VStr "x") VUndefined [])] init)
    = ([Some (mkContext (VStr "x") (VStr "x") [])], init).
Proof.
  rewrite (migrateAll_flag_down ctxs init eq_refl). by repeat split.
Qed.

End ContextFacts.

(** ** The scheduled-refresh timer *)

Section TimerFacts.
Import Timer.
Variable formatDuration : Z → string.

Local Abbreviation start := (startScheduledRefreshTimer formatDuration).
Local Abbreviation reload := reloadEnvVariables.

Lemma start_not_ready s :
  isReadyForQueryProcessing s = false → start s = ((false, Some not_ready), s).
Proof. unfold startScheduledRefreshTimer. by intros ->. Qed.

Lemma start_existing s iv :
  isReadyForQueryProcessing s = true →
  scheduledRefreshTimerInterval s = Some iv →
  start s = ((true, None), s).
Proof. unfold startScheduledRefreshTimer. by intros -> ->. Qed.

Lemma start_creates s t :
  isReadyForQueryProcessing s = true →
  scheduledRefreshTimerInterval s = None →
  detectScheduledRefreshTimer (options_scheduledRefreshTimer s) = Some t →
  start s =
    ((true, None),
     mkState (options_dbType s) (env_CUBEJS_DB_TYPE s)
       (options_scheduledRefreshTimer s)
       (Some (new_interval formatDuration t)) (S (intervals_created s))).
Proof.
  unfold startScheduledRefreshTimer. intros -> -> Ht. rewrite Ht. cbn.
  case_bool_decide as Hz; [|done]. subst t.
  unfold detectScheduledRefreshTimer in Ht.
  destruct (options_scheduledRefreshTimer s) as [[[n|[] d]|[]]|];
    cbn in Ht; try discriminate.
  case_bool_decide; [discriminate|]. cbn in Ht. injection Ht. lia.
Qed.

Lemma start_no_timer s :
  isReadyForQueryProcessing s = true →
  scheduledRefreshTimerInterval s = None →
  detectScheduledRefreshTimer (options_scheduledRefreshTimer s) = None →
  start s = ((false, Some no_timer), s).
Proof. unfold startScheduledRefreshTimer. by intros -> -> ->. Qed.

Lemma dbType_or_env_reload s : dbType_or_env (reload s) = dbType_or_env s.
Proof.
  destruct s as [[[n|f]|] [e|] t i c];
    unfold reloadEnvVariables; repeat (unfold dbType_or_env; cbn);
    repeat (case_bool_decide; cbn); done.
Qed.

Lemma ready_reload s :
  isReadyForQueryProcessing (reload s) = isReadyForQueryProcessing s.
Proof. unfold isReadyForQueryProcessing. by rewrite dbType_or_env_reload. Qed.

Lemma timer_inv_start s :
  timer_inv formatDuration s → timer_inv formatDuration (start s).2.
Proof.
  unfold timer_inv. intros Hinv.
  destruct (isReadyForQueryProcessing s) eqn:Hr.
  - destruct (scheduledRefreshTimerInterval s) as [iv0|] eqn:Hi.
    + rewrite (start_existing s iv0 Hr Hi). cbn. rewrite Hi, Hr. exact Hinv.
    + destruct (detectScheduledRefreshTimer (options_scheduledRefreshTimer s))
        as [t|] eqn:Ht.
      * rewrite (start_creates s t Hr Hi Ht). cbn.
        split; [exact Hr|]. split; [by rewrite Hinv | by exists t].
      * rewrite (start_no_timer s Hr Hi Ht). cbn. by rewrite Hi.
  - rewrite (start_not_ready s Hr). cbn. rewrite Hr. exact Hinv.
Qed.

Lemma timer_inv_reload s :
  timer_inv formatDuration s → timer_inv formatDuration (reload s).
Proof.
  unfold timer_inv. rewrite ready_reload. cbn.
  by destruct (scheduledRefreshTimerInterval s).
Qed.

Lemma timer_inv_run ops s :
  timer_inv formatDuration s → timer_inv formatDuration (run_ops formatDuration ops s).
Proof.
  revert s. induction ops as [|o ops IH]; intros s Hinv; [done|].
  cbn. apply IH. destruct o; [by apply timer_inv_start | by apply timer_inv_reload].
Qed.

Lemma timer_inv_construct dbType env timer :
  timer_inv formatDuration (construct formatDuration dbType env timer).
Proof. unfold construct. apply timer_inv_start. reflexivity. Qed.

Lemma tick_in_flight iv now r :
  in_flight r = true →
  tick iv now r =
    (mkRuntime true (intervalId r) (startTime r) true,
     [onDuplicatedExecution iv (intervalId r)]).
Proof. unfold tick. by intros ->. Qed.

Lemma overrun_trace iv (later : list Z) done_at r :
  in_flight r = true →
  overlapped r = true →
  (occurAll iv (map Fires later ++ [Completes done_at]) r).2 =
    replicate (length later) (onDuplicatedExecution iv (intervalId r))
    ++ [onDuplicatedStateResolved iv (intervalId r) (done_at - startTime r)%Z].
Proof.
  revert r. induction later as [|t later IH]; intros r Hfl Hov.
  - cbn. unfold finish. by rewrite Hfl, Hov.
  - cbn [map app occurAll occur length replicate].
    rewrite (tick_in_flight iv t r Hfl).
    specialize (IH (mkRuntime true (intervalId r) (startTime r) true) eq_refl eq_refl).
    destruct (occurAll iv _ _) as [r2 l2]. cbn in IH |- *. by rewrite IH.
Qed.

(** C9: on an instance built by the constructor, the interval created
    by [startScheduledRefreshTimer] reports an overlap (the timer fires
    while the previous run is in flight) by the logger event "Refresh
    Scheduler Interval Error", whose message carries the interval-id and
    the period, and starts no second run; this at every firing that
    finds the run in flight.  When the overrun run completes, it reports
    "Refresh Scheduler Long Execution" with the interval-id and the
    formatted elapsed time, once, whatever the elapsed time.  The
    interval-id is incremented for each run started, and a run that was
    not overrun completes without a report. *)
Theorem C9_refresh_scheduler_diagnostics (dbType : option DbType)
    (env : option string) (timer : option timer_option) (ops : list op)
    (iv : CancelableInterval) (r : runtime) (now done_at : Z) :
  let s := run_ops formatDuration ops (construct formatDuration dbType env timer) in
  let r' := (tick iv now r).1 in
  let overlap_detected :=
    ("Refresh Scheduler Interval Error",
     [("error", "Previous interval #" +:+ pretty (intervalId r) +:+
                " was not finished with " +:+ pretty (interval iv) +:+
                " interval")]) in
  let overlap_resolved :=
    ("Refresh Scheduler Long Execution",
     [("warning", "Interval #" +:+ pretty (intervalId r) +:+
                  " finished after " +:+
                  formatDuration (done_at - startTime r))]) in
  scheduledRefreshTimerInterval s = Some iv →
  in_flight r = true →
  (tick iv now r).2 = [overlap_detected]
  ∧ in_flight r' = true
  ∧ intervalId r' = intervalId r
  ∧ startTime r' = startTime r
  ∧ (finish iv done_at r').2 = [overlap_resolved]
  ∧ in_flight (finish iv done_at r').1 = false
  ∧ (∀ later : list Z,
       (occurAll iv (map Fires (now :: later) ++ [Completes done_at]) r).2 =
         replicate (S (length later)) overlap_detected ++ [overlap_resolved])
  ∧ (∀ r0 t0, in_flight r0 = false →
       (tick iv t0 r0).2 = []
       ∧ intervalId (tick iv t0 r0).1 = S (intervalId r0)
       ∧ ∀ t1, (finish iv t1 (tick iv t0 r0).1).2 = []).
Proof.
  intros s r' overlap_detected overlap_resolved Hiv Hfl.
  pose proof (timer_inv_run ops _ (timer_inv_construct dbType env timer)) as Hinv.
  fold s in Hinv. unfold timer_inv in Hinv. rewrite Hiv in Hinv.
  destruct Hinv as (_ & _ & t & ->).
  subst r' overlap_detected overlap_resolved.
  split; [|split; [|split; [|split; [|split; [|split; [|split]]]]]].
  - by rewrite tick_in_flight.
  - by rewrite tick_in_flight.
  - by rewrite tick_in_flight.
  - by rewrite tick_in_flight.
  - by rewrite tick_in_flight.
  - by rewrite tick_in_flight.
  - intros later. cbn [map app occurAll occur length replicate].
    rewrite (tick_in_flight _ now r Hfl).
    pose proof (overrun_trace (new_interval formatDuration t) later done_at
                  (mkRuntime true (intervalId r) (startTime r) true)
                  eq_refl eq_refl) as Htr.
    destruct (occurAll _ _ _) as [r2 l2]. cbn in Htr |- *. by rewrite Htr.
  - intros r0 t0 Hidle. unfold tick, finish. rewrite Hidle. by cbn.
Qed.

(** C10: on an instance built by the constructor and driven by
    [startScheduledRefreshTimer] and [reloadEnvVariables], at most one
    interval is ever created, and a call that finds an interval returns
    [[true, null]] and changes nothing.  In any state, a call on an
    instance that is not ready returns [[false, reason]] and changes
    nothing, and so does a call on a ready instance without interval
    for which no timer is configured. *)
Theorem C10_startScheduledRefreshTimer_idempotent (dbType : option DbType)
    (env : option string) (timer : option timer_option) (ops : list op)
    (s' : Timer.state) :
  let s := run_ops formatDuration ops (construct formatDuration dbType env timer) in
  intervals_created s ≤ 1
  ∧ (∀ iv, scheduledRefreshTimerInterval s = Some iv →
       start s = ((true, None), s))
  ∧ (∀ iv, isReadyForQueryProcessing s' = true →
       scheduledRefreshTimerInterval s' = Some iv →
       start s' = ((true, None), s'))
  ∧ (isReadyForQueryProcessing s' = false →
       start s' = ((false, Some not_ready), s'))
  ∧ (isReadyForQueryProcessing s' = true →
       scheduledRefreshTimerInterval s' = None →
       detectScheduledRefreshTimer (options_scheduledRefreshTimer s') = None →
       start s' = ((false, Some no_timer), s')).
Proof.
  intros s.
  pose proof (timer_inv_run ops _ (timer_inv_construct dbType env timer)) as Hinv.
  fold s in Hinv. unfold timer_inv in Hinv.
  split; [|split; [|split; [|split]]].
  - destruct (scheduledRefreshTimerInterval s); [destruct Hinv as (_ & -> & _)|]; lia.
  - intros iv Hiv. rewrite Hiv in Hinv. destruct Hinv as (Hr & _).
    by apply (start_existing s iv).
  - intros iv. apply start_existing.
  - apply start_not_ready.
  - apply start_no_timer.
Qed.

End TimerFacts.

(** A ready instance with a five-second timer, its run number 3 still in
    flight when the timer fires, twice, completing after 12.5 seconds. *)
Lemma C9_refresh_scheduler_diagnostics_witness :
  let iv := Timer.new_interval Samples.millis 5000%Z in
  let r := Timer.mkRuntime true 3 0%Z false in
  (Timer.tick iv 5000%Z r).2 =
    [("Refresh Scheduler Interval Error",
      [("error", "Previous interval #3 was not finished with 5000 interval")])]
  ∧ (Timer.occurAll iv
       [Timer.Fires 5000%Z; Timer.Fires 10000%Z; Timer.Completes 12500%Z] r).2 =
    [("Refresh Scheduler Interval Error",
      [("error", "Previous interval #3 was not finished with 5000 interval")]);
     ("Refresh Scheduler Interval Error",
      [("error", "Previous interval #3 was not finished with 5000 interval")]);
     ("Refresh Scheduler Long Execution",
      [("warning", "Interval #3 finished after 12500ms")])].
Proof.
  destruct (C9_refresh_scheduler_diagnostics Samples.millis
              (Some (Timer.DbName "postgres")) None
              (Some (Timer.seconds 5 eq_refl)) []
              (Timer.new_interval Samples.millis 5000%Z)
              (Timer.mkRuntime true 3 0%Z false) 5000%Z 12500%Z
              eq_refl eq_refl)
    as (H1 & _ & _ & _ & _ & _ & H7 & _).
  exact (conj H1 (H7 [10000%Z])).
Defined.

(** A ready instance with the default timer, started again twice. *)
Lemma C10_startScheduledRefreshTimer_idempotent_witness :
  let s := Timer.run_ops Samples.millis [Timer.OpStart; Timer.OpReload; Timer.OpStart]
             (Timer.construct Samples.millis (Some (Timer.DbName "postgres")) None
                (Some (Timer.TimerBool true))) in
  let idle := Timer.construct Samples.millis None None (Some (Timer.TimerBool true)) in
  let off := Timer.construct Samples.millis (Some (Timer.DbName "postgres")) None None in
  Timer.intervals_created s ≤ 1
  ∧ Timer.startScheduledRefreshTimer Samples.millis s = ((true, None), s)
  ∧ Timer.startScheduledRefreshTimer Samples.millis idle
      = ((false, Some Timer.not_ready), idle)
  ∧ Timer.startScheduledRefreshTimer Samples.millis off
      = ((false, Some Timer.no_timer), off).
Proof.
  pose proof (C10_startScheduledRefreshTimer_idempotent Samples.millis
                (Some (Timer.DbName "postgres")) None (Some (Timer.TimerBool true))
                [Timer.OpStart; Timer.OpReload; Timer.OpStart]) as H.
  exact (conj (proj1 (H (Timer.construct Samples.millis None None None)))
    (conj (proj1 (proj2 (H (Timer.construct Samples.millis None None None)))
             (Timer.new_interval Samples.millis 30000%Z) eq_refl)
    (conj (proj1 (proj2 (proj2 (proj2
             (H (Timer.construct Samples.millis None None
                   (Some (Timer.TimerBool true))))))) eq_refl)
          (proj2 (proj2 (proj2 (proj2
             (H (Timer.construct Samples.millis
                   (Some (Timer.DbName "postgres")) None None)))))
             eq_refl eq_refl eq_refl)))).
Defined.

(** ** Driver creation *)

Section DriverFacts.
Import Drivers.

Lemma index0_prefix (p v : string) :
  String.index 0 p v = Some 0 ↔ String.prefix p v = true.
Proof.
  destruct v as [|a v]; cbn [String.index].
  - destruct p; cbn; split; congruence.
  - destruct (String.prefix p (String a v)); [done|].
    destruct (String.index 0 p v); split; congruence.
Qed.

Lemma has_placeholder_spec env c :
  has_placeholder env c = true ↔
  ∃ v, env !! c = Some v ∧ String.prefix placeholderSubstr v = true.
Proof.
  unfold has_placeholder. destruct (env !! c) as [v|]; [|split; [done | by intros (? & ? & ?)]].
  rewrite andb_true_iff, negb_true_iff, bool_decide_eq_false, bool_decide_eq_true.
  unfold indexOf. rewrite index0_prefix. split.
  - intros [_ H]. by exists v.
  - intros (v' & [= <-] & H). split; [|done]. intros ->. discriminate.
Qed.

Lemma checkEnv_throws env :
  is_Some (checkEnvForPlaceholders env) ↔
  ∃ c, c ∈ credentials ∧ has_placeholder env c = true.
Proof.
  unfold checkEnvForPlaceholders.
  destruct (List.find (has_placeholder env) credentials) as [c|] eqn:Hf.
  - apply List.find_some in Hf as [Hin Hc]. split; [|by eexists].
    intros _. exists c. split; [by apply list_elem_of_In | done].
  - split; [by intros [? ?]|]. intros (c & Hin & Hc).
    apply list_elem_of_In in Hin.
    pose proof (List.find_none _ _ Hf c Hin). congruence.
Qed.

Lemma checkEnv_cases env :
  checkEnvForPlaceholders env = None
  ∨ checkEnvForPlaceholders env = Some placeholders_error.
Proof.
  unfold checkEnvForPlaceholders.
  destruct (List.find _ _); [by right | by left].
Qed.

(** X1: [checkEnvForPlaceholders] throws exactly when one of the four
    credential variables has a value that begins with the placeholder
    text; the error is always the same, and variables other than the
    four (the port, the type, ...) have no influence. *)
Theorem X1_checkEnvForPlaceholders_iff (env : gmap string string) :
  (is_Some (checkEnvForPlaceholders env) ↔
   ∃ c v, c ∈ credentials ∧ env !! c = Some v
          ∧ String.prefix placeholderSubstr v = true)
  ∧ (∀ e, checkEnvForPlaceholders env = Some e → e = placeholders_error)
  ∧ (∀ env', (∀ c, c ∈ credentials → env' !! c = env !! c) →
       checkEnvForPlaceholders env' = checkEnvForPlaceholders env).
Proof.
  split; [|split].
  - rewrite checkEnv_throws. split.
    + intros (c & Hin & Hc). apply has_placeholder_spec in Hc as (v & ? & ?).
      by exists c, v.
    + intros (c & v & Hin & Hv & Hp). exists c. split; [done|].
      apply has_placeholder_spec. by exists v.
  - intros e He. destruct (checkEnv_cases env) as [H|H]; congruence.
  - intros env' Hagree.
    assert (Hiff : is_Some (checkEnvForPlaceholders env') ↔
                   is_Some (checkEnvForPlaceholders env)).
    { rewrite !checkEnv_throws. split; intros (c & Hin & Hc); exists c;
        (split; [done|]); unfold has_placeholder in *;
        [rewrite <- (Hagree c Hin) | rewrite (Hagree c Hin)]; done. }
    destruct (checkEnv_cases env) as [H|H], (checkEnv_cases env') as [H'|H'];
      rewrite H, H' in *; try done.
    + destruct Hiff as [Hl _]. by destruct Hl as [? ?].
    + destruct Hiff as [_ Hr]. by destruct Hr as [? ?].
Qed.

Lemma X1_checkEnvForPlaceholders_iff_witness :
  checkEnvForPlaceholders Fixtures.env_template = Some placeholders_error
  ∧ checkEnvForPlaceholders
      (<["CUBEJS_DB_PORT" := "<YOUR_DB_PORT_HERE>"]> Fixtures.env_filled)
    = checkEnvForPlaceholders Fixtures.env_filled.
Proof.
  pose proof (X1_checkEnvForPlaceholders_iff Fixtures.env_template) as (H1 & H2 & _).
  pose proof (X1_checkEnvForPlaceholders_iff Fixtures.env_filled) as (_ & _ & H3).
  split.
  - destruct (proj2 H1) as [e He].
    + exists "CUBEJS_DB_HOST", "<YOUR_DB_HOST_HERE>".
      split; [apply list_elem_of_In; simpl; tauto|]. split; reflexivity.
    + rewrite He. f_equal. by apply H2.
  - apply H3. intros c Hc. apply lookup_insert_ne. intros <-.
    apply list_elem_of_In in Hc. simpl in Hc. intuition discriminate.
Defined.

Section DefaultFactory.
Context {Ctx : Type}.
Variable DriverDependencies : gmap string string.
Variable installed : string → bool.
Variable load : string → Broker.error + Broker.BaseDriver.
Variable contextToDbType : Ctx → option string.

Local Abbreviation factory := (driverFactory DriverDependencies installed load contextToDbType).

(** X2: the default driver factory never returns a rejected promise: it
    returns [null] for a context without database type and otherwise
    a driver, or it throws.  Placeholder credentials make it throw their
    error whatever the database type is; with clean credentials a type
    that is neither in the table nor installed as a module throws
    "Unsupported db type"; a type in the table loads the table's module
    even when a module of the derived name is installed. *)
Theorem X2_default_driverFactory (env : gmap string string) (ctx : Ctx) :
  (∀ e, factory env ctx ≠ Broker.Rejects e)
  ∧ (truthy_str (contextToDbType ctx) = false →
       factory env ctx = Broker.Resolves None)
  ∧ (truthy_str (contextToDbType ctx) = true →
       is_Some (checkEnvForPlaceholders env) →
       factory env ctx = Broker.Throws placeholders_error)
  ∧ (∀ t, contextToDbType ctx = Some t → t ≠ "" →
       checkEnvForPlaceholders env = None →
       DriverDependencies !! t = None →
       installed (t +:+ "-cubejs-driver") = false →
       factory env ctx = Broker.Throws ("Unsupported db type: " +:+ t))
  ∧ (∀ t m, contextToDbType ctx = Some t → t ≠ "" →
       checkEnvForPlaceholders env = None →
       DriverDependencies !! t = Some m → m ≠ "" →
       factory env ctx =
         match load m with
         | inl e => Broker.Throws e
         | inr d => Broker.Resolves (Some d)
         end).
Proof.
  unfold driverFactory, createDriver, lookupDriverClass, driverDependencies.
  split; [|split; [|split; [|split]]].
  - intros e. destruct (truthy_str (contextToDbType ctx)); [|done].
    destruct (checkEnvForPlaceholders env); [done|].
    repeat (case_match; try done).
  - by intros ->.
  - intros -> [e He]. rewrite He.
    destruct (checkEnv_cases env) as [H|H]; congruence.
  - intros t Ht Hne Hc Htab Hinst. rewrite Ht, Hc. cbn.
    rewrite bool_decide_eq_false_2 by done. cbn.
    by rewrite Htab, Hinst.
  - intros t m Ht Hne Hc Htab Hm. rewrite Ht, Hc. cbn.
    rewrite bool_decide_eq_false_2 by done. cbn.
    rewrite Htab. cbn. rewrite bool_decide_eq_false_2 by done. cbn.
    by destruct (load m).
Qed.

End DefaultFactory.

Lemma X2_default_driverFactory_witness :
  driverFactory Fixtures.table Fixtures.nothing_installed Fixtures.load_healthy
    Fixtures.no_dbType Fixtures.env_filled (tt, "default")
  = Broker.Resolves None
  ∧ driverFactory Fixtures.table Fixtures.nothing_installed Fixtures.load_healthy
      Fixtures.always_postgres Fixtures.env_template (tt, "default")
    = Broker.Throws placeholders_error
  ∧ driverFactory ∅ Fixtures.nothing_installed Fixtures.load_healthy
      Fixtures.always_postgres Fixtures.env_filled (tt, "default")
    = Broker.Throws "Unsupported db type: postgres"
  ∧ driverFactory Fixtures.table Fixtures.nothing_installed Fixtures.load_healthy
      Fixtures.always_postgres Fixtures.env_filled (tt, "default")
    = Broker.Resolves (Some Samples.healthy).
Proof.
  exact (conj
    (proj1 (proj2 (X2_default_driverFactory Fixtures.table
       Fixtures.nothing_installed Fixtures.load_healthy Fixtures.no_dbType
       Fixtures.env_filled (tt, "default"))) eq_refl)
    (conj
      (proj1 (proj2 (proj2 (X2_default_driverFactory Fixtures.table
         Fixtures.nothing_installed Fixtures.load_healthy Fixtures.always_postgres
         Fixtures.env_template (tt, "default")))) eq_refl
         (ex_intro _ placeholders_error eq_refl))
      (conj
        (proj1 (proj2 (proj2 (proj2 (X2_default_driverFactory ∅
           Fixtures.nothing_installed Fixtures.load_healthy Fixtures.always_postgres
           Fixtures.env_filled (tt, "default"))))) "postgres" eq_refl
           ltac:(discriminate) eq_refl eq_refl eq_refl)
        (proj2 (proj2 (proj2 (proj2 (X2_default_driverFactory Fixtures.table
           Fixtures.nothing_installed Fixtures.load_healthy Fixtures.always_postgres
           Fixtures.env_filled (tt, "default"))))) "postgres"
           "@cubejs-backend/postgres-driver" eq_refl
           ltac:(discriminate) eq_refl eq_refl ltac:(discriminate))))).
Defined.

End DriverFacts.

Section DefaultFactoryBroker.
Import Drivers Broker.
Context {Ctx : Type}.
Variable DriverDependencies : gmap string string.
Variable installed : string → bool.
Variable load : string → Broker.error + Broker.BaseDriver.
Variable contextToDbType : Ctx * string → option string.

Local Abbreviation get :=
  (getDriverDefault DriverDependencies installed load contextToDbType).

Lemma driverFactory_placeholders env (ctx : Ctx * string) :
  truthy_str (contextToDbType ctx) = true →
  is_Some (checkEnvForPlaceholders env) →
  driverFactory DriverDependencies installed load contextToDbType env ctx
  = Throws placeholders_error.
Proof.
  unfold driverFactory, createDriver. intros -> [e He]. rewrite He.
  destruct (checkEnv_cases env) as [H|H]; congruence.
Qed.

Lemma driverFactory_no_dbType env (ctx : Ctx * string) :
  truthy_str (contextToDbType ctx) = false →
  driverFactory DriverDependencies installed load contextToDbType env ctx
  = Resolves None.
Proof. unfold driverFactory. by intros ->. Qed.

(** X3: [getDriver] of an orchestrator of a server that uses the
    default driver factory.  With placeholder credentials the first call
    leaves a rejected promise in the slot, and every later call returns
    it, also once the environment has been corrected.  For a context
    without database type the factory returns [null], the attempt fails
    with a TypeError, the slot is emptied and the next call invokes the
    factory again. *)
Theorem X3_default_factory_failures (env env' : gmap string string)
    (context : Ctx) (ds : option string) (s : Broker.state) :
  let sl := DataSource (default "default" ds) in
  read_slot sl s = None →
  (truthy_str (contextToDbType (context, default "default" ds)) = true →
   is_Some (checkEnvForPlaceholders env) →
   let r1 := get env context ds s in
   outcome r1.1 r1.2 = Some (Rejected placeholders_error)
   ∧ get env' context ds r1.2 = r1
   ∧ count is_factory r1.2 = S (count is_factory s))
  ∧ (truthy_str (contextToDbType (context, default "default" ds)) = false →
     let r1 := get env context ds s in
     let s2 := complete r1.1 r1.2 in
     outcome r1.1 s2 = Some (Rejected Broker.TypeError)
     ∧ read_slot sl s2 = None
     ∧ count is_factory (get env' context ds s2).2 = S (S (count is_factory s))).
Proof.
  intros sl Hs. unfold getDriverDefault. rewrite !getDriver_acquire. fold sl.
  split.
  - intros Ht Hph. cbv zeta. rewrite (driverFactory_placeholders env _ Ht Hph).
    destruct (acquire_miss sl (Throws placeholders_error) s Hs) as (Hp & Hsl & Hc & Hl).
    split; [|split].
    + rewrite Hp. by apply outcome_lookup.
    + rewrite (acquire_hit sl _ _ _ Hsl). rewrite <- Hp. by destruct (acquire _ _ _).
    + rewrite (count_log_app _ s _ _ Hl). simpl. lia.
  - intros Ht. cbv zeta. rewrite !(driverFactory_no_dbType _ _ Ht).
    destruct (acquire_miss sl (Resolves None) s Hs) as (Hp & Hsl & Hc & Hl).
    rewrite Hp in *.
    destruct (complete_view _ _ _ Hc) as (H3 & L3 & S3).
    pose proof (chain_start sl (Resolves None)) as Hch. rewrite Hch in H3.
    assert (Hempty : read_slot sl (complete (length (promises s))
                       (acquire sl (Resolves None) s).2) = None).
    { rewrite S3. unfold chain_catch. cbn. by case_decide. }
    split; [by apply outcome_lookup|]. split; [done|].
    destruct (acquire_miss sl (Resolves None) _ Hempty) as (_ & _ & _ & Hl2).
    rewrite (count_log_app _ _ _ _ Hl2), (count_log_app _ _ _ _ L3), chain_no_factory.
    rewrite (count_log_app _ s _ _ Hl). simpl. lia.
Qed.

End DefaultFactoryBroker.

Lemma X3_default_factory_failures_witness :
  let get := Drivers.getDriverDefault Fixtures.table Fixtures.nothing_installed
               Fixtures.load_healthy in
  let r1 := get Fixtures.always_postgres Fixtures.env_template tt None Broker.init in
  let q1 := get Fixtures.no_dbType Fixtures.env_filled tt None Broker.init in
  (Broker.outcome r1.1 r1.2 = Some (Broker.Rejected Drivers.placeholders_error)
   ∧ get Fixtures.always_postgres Fixtures.env_filled tt None r1.2 = r1)
  ∧ Broker.read_slot (Broker.DataSource "default") (Broker.complete q1.1 q1.2) = None.
Proof.
  pose proof (X3_default_factory_failures Fixtures.table Fixtures.nothing_installed
                Fixtures.load_healthy Fixtures.always_postgres
                Fixtures.env_template Fixtures.env_filled tt None Broker.init eq_refl)
    as [H1 _].
  pose proof (X3_default_factory_failures Fixtures.table Fixtures.nothing_installed
                Fixtures.load_healthy Fixtures.no_dbType
                Fixtures.env_filled Fixtures.env_filled tt None Broker.init eq_refl)
    as [_ H2].
  destruct (H1 eq_refl (ex_intro _ Drivers.placeholders_error eq_refl)) as (Ha & Hb & _).
  destruct (H2 eq_refl) as (_ & Hc & _).
  exact (conj (conj Ha Hb) Hc).
Defined.

(** ** The server's own [getDriver] *)

Section ServerDriverFacts.
Import ServerDriver.

Lemma sd_getDriver_view f s :
  let p := length (promises s) in
  (getDriver f s).1 = p
  ∧ promises (getDriver f s).2 = promises s ++ [start_cell (driver s) f]
  ∧ driver (getDriver f s).2 = driver s
  ∧ log (getDriver f s).2 =
      log s ++ match driver s with Some _ => [] | None => [EvFactory] end.
Proof.
  unfold getDriver, start_cell. destruct (driver s) eqn:Hd; cbn;
    rewrite ?app_nil_r, ?Hd; done.
Qed.

Lemma sd_resume_view p s c :
  promises s !! p = Some c →
  promises (resume p s) = <[p := next_cell c]> (promises s)
  ∧ log (resume p s) = log s ++ next_events c
  ∧ driver (resume p s) = match stores c with Some d => Some d | None => driver s end.
Proof.
  intros Hc. unfold resume. rewrite Hc.
  destruct c as [[[e|[d|]]|d [e|[]]]|o]; cbn; rewrite ?app_nil_r; try done.
  by rewrite list_insert_id.
Qed.

Lemma sd_factory_calls_app s s' evs :
  log s' = log s ++ evs →
  factory_calls s' = factory_calls s + length (filter (λ ev, ev = EvFactory) evs).
Proof. unfold factory_calls. intros ->. by rewrite filter_app, length_app. Qed.

Lemma sd_resume_middle dr l1 l2 lg c :
  resume (length l1) (mkState dr (l1 ++ c :: l2) lg)
  = mkState (match stores c with Some d => Some d | None => dr end)
      (l1 ++ next_cell c :: l2) (lg ++ next_events c).
Proof.
  assert (Hc : promises (mkState dr (l1 ++ c :: l2) lg) !! length l1 = Some c)
    by (by apply list_lookup_middle).
  destruct (sd_resume_view _ _ _ Hc) as (Hp & Hl & Hd). cbn in Hp, Hl, Hd.
  destruct (resume _ _) as [dr' ps' lg']. cbn in *. subst.
  f_equal. replace (length l1) with (length l1 + 0) by lia.
  by rewrite insert_app_r.
Qed.

Lemma sd_complete_middle dr l1 l2 lg c :
  complete (length l1) (mkState dr (l1 ++ c :: l2) lg)
  = mkState
      (match stores (next_cell c) with
       | Some d => Some d
       | None => match stores c with Some d => Some d | None => dr end
       end)
      (l1 ++ next_cell (next_cell c) :: l2)
      (lg ++ next_events c ++ next_events (next_cell c)).
Proof. unfold complete. rewrite !sd_resume_middle. by rewrite <- app_assoc. Qed.

Lemma sd_outcome_middle dr l1 l2 lg o :
  outcome (length l1) (mkState dr (l1 ++ Settled o :: l2) lg) = Some o.
Proof. unfold outcome. cbn. by rewrite list_lookup_middle. Qed.

Lemma sd_callAll_factory_calls fs s :
  factory_calls (callAll fs s) =
    factory_calls s + match driver s with Some _ => 0 | None => length fs end
  ∧ driver (callAll fs s) = driver s
  ∧ length (promises (callAll fs s)) = length (promises s) + length fs.
Proof.
  revert s. induction fs as [|f fs IH]; intros s.
  - cbn. destruct (driver s); repeat split; lia.
  - cbn [callAll foldl]. fold (callAll fs (getDriver f s).2).
    destruct (sd_getDriver_view f s) as (_ & Hp & Hd & Hl).
    destruct (IH (getDriver f s).2) as (IH1 & IH2 & IH3).
    rewrite IH1, IH2, IH3, Hd, Hp, length_app, (sd_factory_calls_app _ _ _ Hl).
    destruct (driver s); simpl; repeat split; lia.
Qed.

(** X4: the server's own [getDriver] does not coalesce: while
    [this.driver] is unset every call invokes the driver factory, so [n]
    calls made before the first one completes make [n] factory
    invocations; once a driver is stored no call invokes the factory. *)
Theorem X4_server_getDriver_not_coalesced
    (fs : list (Broker.call_result (option Broker.BaseDriver))) (s : ServerDriver.state) :
  (driver s = None →
     factory_calls (callAll fs s) = factory_calls s + length fs
     ∧ driver (callAll fs s) = None)
  ∧ (∀ d, driver s = Some d →
       factory_calls (callAll fs s) = factory_calls s
       ∧ ∀ f, outcome (getDriver f s).1 (getDriver f s).2
              = Some (Broker.Fulfilled d)).
Proof.
  destruct (sd_callAll_factory_calls fs s) as (H1 & H2 & _).
  split.
  - intros Hd. rewrite Hd in *. by rewrite H1, H2.
  - intros d Hd. rewrite Hd in H1. split; [lia|].
    intros f. destruct s as [dr ps lg]. cbn in Hd. subst dr.
    unfold getDriver. cbn [driver promises fst snd].
    apply (sd_outcome_middle (Some d) ps [] lg).
Qed.

Lemma X4_server_getDriver_not_coalesced_witness :
  factory_calls
    (callAll [Broker.Resolves (Some Samples.healthy);
              Broker.Resolves (Some Samples.healthy);
              Broker.Resolves (Some Samples.healthy)] init) = 3
  ∧ factory_calls
      (callAll [Broker.Rejects "unused"] (mkState (Some Samples.healthy) [] [])) = 0.
Proof.
  exact (conj
    (proj1 (proj1 (X4_server_getDriver_not_coalesced
       [Broker.Resolves (Some Samples.healthy);
        Broker.Resolves (Some Samples.healthy);
        Broker.Resolves (Some Samples.healthy)] init) eq_refl))
    (proj1 (proj2 (X4_server_getDriver_not_coalesced
       [Broker.Rejects "unused"] (mkState (Some Samples.healthy) [] []))
       Samples.healthy eq_refl))).
Defined.

Lemma sd_complete_second dr ps lg c1 c2 :
  complete (S (length ps)) (mkState dr (ps ++ [c1; c2]) lg)
  = mkState
      (match stores (next_cell c2) with
       | Some d => Some d
       | None => match stores c2 with Some d => Some d | None => dr end
       end)
      (ps ++ [c1; next_cell (next_cell c2)])
      (lg ++ next_events c2 ++ next_events (next_cell c2)).
Proof.
  pose proof (sd_complete_middle dr (ps ++ [c1]) [] lg c2) as H.
  rewrite length_app, <- !app_assoc in H. cbn [app length] in H.
  replace (length ps + 1) with (S (length ps)) in H by lia. exact H.
Qed.

Lemma sd_outcome_second dr ps lg c1 o :
  outcome (S (length ps)) (mkState dr (ps ++ [c1; Settled o]) lg) = Some o.
Proof.
  pose proof (sd_outcome_middle dr (ps ++ [c1]) [] lg o) as H.
  rewrite length_app, <- !app_assoc in H. cbn [app length] in H.
  replace (length ps + 1) with (S (length ps)) in H by lia. exact H.
Qed.

Lemma sd_resume_second dr ps lg c1 c2 :
  resume (S (length ps)) (mkState dr (ps ++ [c1; c2]) lg)
  = mkState (match stores c2 with Some d => Some d | None => dr end)
      (ps ++ [c1; next_cell c2]) (lg ++ next_events c2).
Proof.
  pose proof (sd_resume_middle dr (ps ++ [c1]) [] lg c2) as H.
  rewrite length_app, <- !app_assoc in H. cbn [app length] in H.
  replace (length ps + 1) with (S (length ps)) in H by lia. exact H.
Qed.

Lemma sd_resume_first dr ps lg c1 c2 :
  resume (length ps) (mkState dr (ps ++ [c1; c2]) lg)
  = mkState (match stores c1 with Some d => Some d | None => dr end)
      (ps ++ [next_cell c1; c2]) (lg ++ next_events c1).
Proof. apply (sd_resume_middle dr ps [c2] lg c1). Qed.

Lemma sd_schedule_length (sch : list bool) :
  length (filter (λ b, b = false) sch) + length (filter (λ b, b = true) sch)
  = length sch.
Proof.
  induction sch as [|[] sch IH]; [done| |].
  - rewrite filter_cons_False, filter_cons_True by done. cbn [length]. lia.
  - rewrite filter_cons_True, filter_cons_False by done. cbn [length]. lia.
Qed.

(** X5: two overlapping calls of the server's own [getDriver] with
    healthy drivers each test and return their own handle, in whatever
    order their four [await]s are delivered; the handle left in
    [this.driver] is that of the call whose [testConnection] completes
    last, which is not always the call made last.  The factory is
    invoked twice.  In [sch], [false] is an [await] of the first call
    delivered and [true] one of the second call. *)
Theorem X5_server_getDriver_last_writer_wins (d1 d2 : Broker.BaseDriver)
    (s : ServerDriver.state) (sch : list bool) :
  driver s = None →
  Broker.testConnection d1 = Broker.Resolves tt →
  Broker.testConnection d2 = Broker.Resolves tt →
  length (filter (λ b, b = false) sch) = 2 →
  length (filter (λ b, b = true) sch) = 2 →
  let p1 := length (promises s) in
  let p2 := S p1 in
  let s2 := callAll [Broker.Resolves (Some d1); Broker.Resolves (Some d2)] s in
  let z := resumeAll ((λ b : bool, if b then p2 else p1) <$> sch) s2 in
  outcome p1 z = Some (Broker.Fulfilled d1)
  ∧ outcome p2 z = Some (Broker.Fulfilled d2)
  ∧ driver z = Some (if default false (last sch) then d2 else d1)
  ∧ factory_calls z = factory_calls s + 2.
Proof.
  destruct s as [dr ps lg]. cbn [driver promises log]. intros -> H1 H2 Hf Ht.
  cbv zeta. unfold callAll, getDriver. cbn [foldl driver promises log fst snd].
  rewrite <- !app_assoc. cbn [app].
  pose proof (sd_schedule_length sch) as Hlen. rewrite Hf, Ht in Hlen.
  destruct sch as [|a [|b [|c [|d [|e sch]]]]]; try discriminate Hlen.
  clear Hlen.
  destruct a, b, c, d;
    try (vm_compute in Hf; discriminate Hf);
    try (vm_compute in Ht; discriminate Ht);
    unfold resumeAll; cbn [fmap list_fmap foldl last default];
    repeat (rewrite ?sd_resume_first, ?sd_resume_second;
            cbn [next_cell next_events stores]; rewrite ?H1, ?H2);
    (split; [apply (sd_outcome_middle _ ps [_])
            | split; [apply sd_outcome_second | split; [done|]]]);
    unfold factory_calls; cbn [log]; rewrite !filter_app, !length_app;
    repeat first [rewrite filter_cons_True by done
                 | rewrite filter_cons_False by done];
    rewrite ?filter_nil; cbn [length]; lia.
Qed.

(** The second call completes first: the first call's handle stays. *)
Lemma X5_server_getDriver_last_writer_wins_witness :
  let s2 := callAll [Broker.Resolves (Some Samples.healthy);
                     Broker.Resolves (Some Fixtures.replica)] init in
  driver (resumeAll [0; 1; 1; 0] s2) = Some Samples.healthy
  ∧ driver (resumeAll [0; 0; 1; 1] s2) = Some Fixtures.replica.
Proof.
  destruct (X5_server_getDriver_last_writer_wins Samples.healthy Fixtures.replica
              init [false; true; true; false] eq_refl eq_refl eq_refl eq_refl eq_refl)
    as (_ & _ & Ha & _).
  destruct (X5_server_getDriver_last_writer_wins Samples.healthy Fixtures.replica
              init [false; false; true; true] eq_refl eq_refl eq_refl eq_refl eq_refl)
    as (_ & _ & Hb & _).
  exact (conj Ha Hb).
Defined.

(** X6: a call of the server's own [getDriver] made while
    [this.driver] is unset always settles; if it fails in any way (the
    factory throws or rejects or returns [null], [testConnection] throws
    or rejects) [this.driver] stays unset and the next call invokes the
    factory again; if it succeeds the handle is stored and the next call
    does not invoke the factory. *)
Theorem X6_server_getDriver_failure_not_cached
    (f f' : Broker.call_result (option Broker.BaseDriver)) (s : ServerDriver.state) :
  driver s = None →
  let p := length (promises s) in
  let s1 := complete p (getDriver f s).2 in
  match outcome p s1 with
  | Some (Broker.Fulfilled d) =>
      driver s1 = Some d
      ∧ factory_calls (getDriver f' s1).2 = factory_calls s1
  | Some (Broker.Rejected e) =>
      driver s1 = None
      ∧ factory_calls (getDriver f' s1).2 = S (factory_calls s1)
  | None => False
  end.
Proof.
  destruct s as [dr ps lg]. cbn [driver promises]. intros ->. cbv zeta.
  pose proof (sd_complete_middle None ps [] (lg ++ [EvFactory])
                (start_cell None f)) as Hs1.
  change (mkState None (ps ++ [start_cell None f]) (lg ++ [EvFactory]))
    with (getDriver f (mkState None ps lg)).2 in Hs1.
  rewrite Hs1. clear Hs1. cbn [start_cell].
  assert (Hcall : ∀ dr' ps' lg',
    factory_calls (getDriver f' (mkState dr' ps' lg')).2 =
    factory_calls (mkState dr' ps' lg')
    + match dr' with Some _ => 0 | None => 1 end).
  { intros dr' ps' lg'.
    destruct (sd_getDriver_view f' (mkState dr' ps' lg')) as (_ & _ & _ & Hl).
    rewrite (sd_factory_calls_app _ _ _ Hl). cbn [driver].
    by destruct dr'. }
  destruct f as [e|[d|]|e]; cbn [next_cell next_events stores].
  - rewrite (sd_outcome_middle _ ps []), Hcall. split; [done | lia].
  - destruct (Broker.testConnection d) as [e|[]|e];
      cbn [next_cell next_events stores];
      rewrite (sd_outcome_middle _ ps []), Hcall; split; (done || lia).
  - rewrite (sd_outcome_middle _ ps []), Hcall. split; [done | lia].
  - rewrite (sd_outcome_middle _ ps []), Hcall. split; [done | lia].
Qed.

Lemma X6_server_getDriver_failure_not_cached_witness :
  let s1 := complete 0 (getDriver (Broker.Throws "Unsupported db type: foo") init).2 in
  outcome 0 s1 = Some (Broker.Rejected "Unsupported db type: foo")
  ∧ driver s1 = None
  ∧ factory_calls (getDriver (Broker.Resolves (Some Samples.healthy)) s1).2 = 2.
Proof.
  pose proof (X6_server_getDriver_failure_not_cached
                (Broker.Throws "Unsupported db type: foo")
                (Broker.Resolves (Some Samples.healthy)) init eq_refl) as H.
  cbv zeta in H.
  change (outcome (length (promises init))
            (complete (length (promises init))
               (getDriver (Broker.Throws "Unsupported db type: foo") init).2))
    with (Some (Broker.Rejected "Unsupported db type: foo")) in H.
  cbv iota beta in H. destruct H as [Ha Hb].
  exact (conj eq_refl (conj Ha Hb)).
Defined.

End ServerDriverFacts.

(** ** The constructor's logger *)

Section LoggerFacts.
Import Logger.

Lemma initAgent_step endpoint msg ps s :
  delivered (initAgent endpoint options_logger msg ps s) = delivered s ++ [(msg, ps)]
  ∧ collected (initAgent endpoint options_logger msg ps s) =
      collected s ++ (if Drivers.truthy_str endpoint then [payload msg ps] else [])
  ∧ events (initAgent endpoint options_logger msg ps s) = events s
  ∧ loadRequestCount (initAgent endpoint options_logger msg ps s) = loadRequestCount s.
Proof.
  unfold initAgent, Drivers.truthy_str. destruct endpoint as [url|]; cbn.
  - case_bool_decide; cbn; by rewrite ?app_nil_r.
  - by rewrite app_nil_r.
Qed.

Lemma constructor_logger_step endpoint devServer msg ps s :
  let s' := constructor_logger endpoint devServer msg ps s in
  delivered s' = delivered s ++ [(msg, ps)]
  ∧ collected s' =
      collected s ++ (if Drivers.truthy_str endpoint then [payload msg ps] else [])
  ∧ events s' =
      events s ++ (if devServer && bool_decide (msg ∈ forwarded)
                   then [(msg, PError (ps !! "error"))] else [])
  ∧ loadRequestCount s' =
      loadRequestCount s +
      (if negb devServer && bool_decide (msg = "Load Request Success") then 1 else 0).
Proof.
  unfold constructor_logger, dev_logger, prod_logger.
  destruct devServer; cbn [andb negb]; cbv zeta.
  - destruct (bool_decide (msg ∈ forwarded));
      match goal with |- context [initAgent _ _ _ _ ?s0] =>
        destruct (initAgent_step endpoint msg ps s0) as (-> & -> & -> & ->) end;
      cbn; rewrite ?app_nil_r; repeat split; lia.
  - destruct (bool_decide (msg = "Load Request Success"));
      match goal with |- context [initAgent _ _ _ _ ?s0] =>
        destruct (initAgent_step endpoint msg ps s0) as (-> & -> & -> & ->) end;
      cbn; rewrite ?app_nil_r; repeat split; lia.
Qed.

Lemma logAll_view endpoint devServer msgs s :
  let s' := logAll (constructor_logger endpoint devServer) msgs s in
  delivered s' = delivered s ++ msgs
  ∧ collected s' =
      collected s ++ (if Drivers.truthy_str endpoint
                      then (λ m, payload m.1 m.2) <$> msgs else [])
  ∧ events s' =
      events s ++ (if devServer
                   then (λ m, (m.1, PError (m.2 !! "error")))
                          <$> filter (λ m, m.1 ∈ forwarded) msgs
                   else [])
  ∧ loadRequestCount s' =
      loadRequestCount s +
      (if devServer then 0
       else length (filter (λ m, m.1 = "Load Request Success") msgs)).
Proof.
  revert s. induction msgs as [|[msg ps] msgs IH]; intros s; cbv zeta.
  - cbn. rewrite !app_nil_r.
    destruct (Drivers.truthy_str endpoint), devServer; rewrite ?app_nil_r;
      repeat split; lia.
  - cbn [logAll foldl fst snd].
    fold (logAll (constructor_logger endpoint devServer) msgs
            (constructor_logger endpoint devServer msg ps s)).
    destruct (IH (constructor_logger endpoint devServer msg ps s))
      as (-> & -> & -> & ->).
    destruct (constructor_logger_step endpoint devServer msg ps s)
      as (-> & -> & -> & ->).
    rewrite <- !app_assoc. rewrite !filter_cons.
    cbn [fst snd].
    destruct (Drivers.truthy_str endpoint), devServer; cbn [andb negb];
      repeat case_bool_decide; repeat case_decide; try done;
      cbn; rewrite ?app_nil_r; repeat split; lia.
Qed.

(** X7: whatever the configuration (development or production, agent
    endpoint set or not), the wrappers hand every message logged through
    [this.logger] to [options.logger] exactly once and in order (what
    [agentCollect] itself does with the logger it is given is outside
    this code).  With an agent
    endpoint every message is also handed to [agentCollect]; the
    development logger forwards the messages of the eight listed kinds,
    with their [error] parameter, to [this.event] and counts nothing;
    the production logger forwards none and counts the "Load Request
    Success" messages. *)
Theorem X7_logger_delivers_once (endpoint : option string) (devServer : bool)
    (msgs : list (string * Logger.params)) :
  let s := logAll (constructor_logger endpoint devServer) msgs init in
  delivered s = msgs
  ∧ collected s =
      (if Drivers.truthy_str endpoint then (λ m, payload m.1 m.2) <$> msgs else [])
  ∧ events s =
      (if devServer
       then (λ m, (m.1, PError (m.2 !! "error")))
              <$> filter (λ m, m.1 ∈ forwarded) msgs
       else [])
  ∧ loadRequestCount s =
      (if devServer then 0
       else length (filter (λ m, m.1 = "Load Request Success") msgs)).
Proof.
  intros s. subst s.
  destruct (logAll_view endpoint devServer msgs init) as (-> & -> & -> & ->).
  by repeat split.
Qed.

Lemma reported_app evs evs' : reported (evs ++ evs') = reported evs + reported evs'.
Proof. unfold reported. by rewrite omap_app, sum_list_with_app. Qed.

Lemma run_app endpoint acts acts' s :
  run endpoint (acts ++ acts') s = run endpoint acts' (run endpoint acts s).
Proof. unfold run. apply foldl_app. Qed.

Lemma step_view endpoint a s :
  reported (events (step endpoint a s)) + loadRequestCount (step endpoint a s)
  = reported (events s) + loadRequestCount s + (if is_success a then 1 else 0)
  ∧ delivered (step endpoint a s) =
      delivered s ++ match a with Log msg ps => [(msg, ps)] | Flush => [] end
  ∧ (is_flush a = false →
       events (step endpoint a s) = events s
       ∧ loadRequestCount (step endpoint a s) =
           loadRequestCount s + (if is_success a then 1 else 0)).
Proof.
  destruct a as [msg ps|]; cbn [step is_success is_flush].
  - destruct (constructor_logger_step endpoint false msg ps s) as (-> & _ & -> & ->).
    cbn [andb negb]. rewrite app_nil_r. repeat split; lia.
  - unfold flush. cbn [events loadRequestCount delivered].
    rewrite reported_app, app_nil_r.
    change (reported [("Load Request Success Aggregated",
                       PAggregated (loadRequestCount s))])
      with (loadRequestCount s + 0).
    split; [lia|]. split; [done|]. discriminate.
Qed.

Lemma run_view endpoint acts s :
  reported (events (run endpoint acts s)) + loadRequestCount (run endpoint acts s)
  = reported (events s) + loadRequestCount s + successes acts
  ∧ delivered (run endpoint acts s) = delivered s ++ messages acts
  ∧ (Forall (λ a, is_flush a = false) acts →
       events (run endpoint acts s) = events s
       ∧ loadRequestCount (run endpoint acts s) = loadRequestCount s + successes acts).
Proof.
  revert s. induction acts as [|a acts IH]; intros s.
  - cbn. rewrite app_nil_r. repeat split; lia.
  - cbn [run foldl]. fold (run endpoint acts (step endpoint a s)).
    destruct (IH (step endpoint a s)) as (IH1 & IH2 & IH3).
    destruct (step_view endpoint a s) as (S1 & S2 & S3).
    unfold successes, messages in *. rewrite filter_cons. cbn [omap].
    split; [|split].
    + rewrite IH1, S1. destruct (is_success a); case_decide; try done; cbn; lia.
    + rewrite IH2, S2, <- app_assoc. by destruct a.
    + intros Hall. apply Forall_cons in Hall as [Ha Hall].
      destruct (IH3 Hall) as [-> ->]. destruct (S3 Ha) as [-> ->].
      split; [done|]. destruct (is_success a); case_decide; try done; cbn; lia.
Qed.

(** X8: on a production instance no "Load Request Success" is lost or
    counted twice: at any time the counts reported so far by the "Load
    Request Success Aggregated" events plus the current counter equal
    the number of such messages logged.  Each firing of the timer
    reports the messages logged since the previous firing and resets the
    counter, and every message still reaches [options.logger]. *)
Theorem X8_load_request_count_conserved (endpoint : option string)
    (acts seg : list Logger.action) :
  let s := run endpoint acts init in
  reported (events s) + loadRequestCount s = successes acts
  ∧ delivered s = messages acts
  ∧ (Forall (λ a, is_flush a = false) seg →
       let s' := run endpoint (acts ++ [Flush] ++ seg ++ [Flush]) init in
       last (events s') =
         Some ("Load Request Success Aggregated", PAggregated (successes seg))
       ∧ loadRequestCount s' = 0).
Proof.
  intros s. subst s.
  destruct (run_view endpoint acts init) as (H1 & H2 & _).
  split; [exact H1|]. split; [exact H2|].
  intros Hseg. cbv zeta. rewrite !run_app.
  set (s1 := run endpoint [Flush] (run endpoint acts init)).
  assert (Hz : loadRequestCount s1 = 0) by reflexivity.
  destruct (run_view endpoint seg s1) as (_ & _ & H3).
  destruct (H3 Hseg) as [He Hc].
  cbn [run foldl step flush events loadRequestCount].
  fold (run endpoint seg s1). rewrite He, Hc, Hz. cbn.
  split; [|done]. by rewrite last_snoc.
Qed.

Lemma X8_load_request_count_conserved_witness :
  let ok := Log "Load Request Success" ∅ in
  let s := run None [ok; Flush; ok; Log "User Error" ∅; ok; Flush] init in
  last (events s) = Some ("Load Request Success Aggregated", PAggregated 2)
  ∧ loadRequestCount s = 0.
Proof.
  exact (proj2 (proj2 (X8_load_request_count_conserved None
           [Log "Load Request Success" ∅]
           [Log "Load Request Success" ∅; Log "User Error" ∅;
            Log "Load Request Success" ∅]))
         ltac:(repeat constructor)).
Defined.

End LoggerFacts.

(** ** Shared compiler objects *)

Section CompilerHeapFacts.
Import LRU Core.
Context {Ctx : Type}.
Variable contextToAppId : Ctx → string.

Local Abbreviation getCompilerApi := (Core.getCompilerApi contextToAppId).

Lemma getCompilerApi_unfold_hit (context : Ctx) now (s : Core.state Ctx) a :
  (get (contextToAppId context) now (compilerCache s)).1 = Some a →
  getCompilerApi context now s =
    (a, Core.mkState (opts s)
          (get (contextToAppId context) now (compilerCache s)).2
          (alter (λ c, mkCompilerApi (compileContext c)
                         (if has_schemaVersion (opts s) then Some context else None))
             a (compilers s))
          (orchestratorStorage s) (orchestrators s)).
Proof.
  intros H. unfold Core.getCompilerApi.
  destruct (get (contextToAppId context) now (compilerCache s)) as [hit cache].
  cbn [fst snd] in *. by subst hit.
Qed.

Lemma getCompilerApi_unfold_miss (context : Ctx) now (s : Core.state Ctx) :
  (get (contextToAppId context) now (compilerCache s)).1 = None →
  getCompilerApi context now s =
    (length (compilers s),
     Core.mkState (opts s)
       (set (contextToAppId context) (length (compilers s)) now (compilerCache s))
       (compilers s ++
          [mkCompilerApi context
             (if has_schemaVersion (opts s) then Some context else None)])
       (orchestratorStorage s) (orchestrators s)).
Proof.
  intros H. pose proof (get_miss _ _ _ H) as Hc. unfold Core.getCompilerApi.
  destruct (get (contextToAppId context) now (compilerCache s)) as [hit cache].
  cbn [fst snd] in *. subst hit cache. f_equal. f_equal.
  apply list_eq. intros i. rewrite list_lookup_alter.
  case_decide as Hi; [|done]. subst i.
  by rewrite (list_lookup_middle (compilers s) []).
Qed.

(** X9: the [CompilerApi] objects are shared and mutated.  On an
    instance whose cached identities all denote objects,
    [getCompilerApi] keeps that property; on a cache hit the object
    returned is the stored one with its [schemaVersion] rebound to the
    context of the present call (its compile context is still that of
    the call that created it); on a miss the new object carries the
    present context in both; no other object is touched. *)
Theorem X9_getCompilerApi_rebinds_schemaVersion (context : Ctx) (now : Z)
    (s : Core.state Ctx) :
  heap_ok s →
  let r := getCompilerApi context now s in
  let version := if has_schemaVersion (opts s) then Some context else None in
  heap_ok r.2
  ∧ (∀ a, (get (contextToAppId context) now (compilerCache s)).1 = Some a →
       ∃ old, compilers s !! a = Some old
              ∧ r.1 = a
              ∧ compilers r.2 !! a = Some (mkCompilerApi (compileContext old) version))
  ∧ ((get (contextToAppId context) now (compilerCache s)).1 = None →
       compilers r.2 !! r.1 = Some (mkCompilerApi context version))
  ∧ (∀ b, b ≠ r.1 → compilers r.2 !! b = compilers s !! b).
Proof.
  intros Hok r version. subst r version.
  destruct (get (contextToAppId context) now (compilerCache s)).1 as [a|] eqn:Hget.
  - rewrite (getCompilerApi_unfold_hit _ _ _ _ Hget). cbn [fst snd compilers compilerCache].
    pose proof Hget as Hh. apply get_hit in Hh as (e & Hf & Hv & _ & He).
    apply find_Some in Hf as [Hin Hk].
    assert (Ha : a < length (compilers s)) by (rewrite <- Hv; by apply Hok).
    apply lookup_lt_is_Some_2 in Ha as [old Hold].
    split; [|split; [|split]].
    + intros e' He'. cbn [compilerCache compilers] in *.
      rewrite length_alter. rewrite He in He'.
      apply elem_of_cons in He' as [->|He']; cbn.
      * rewrite <- Hv. by apply Hok.
      * apply Hok. unfold remove in He'. by apply list_elem_of_filter in He' as [_ ?].
    + intros a' [= <-]. exists old. split; [done|]. split; [done|].
      by rewrite list_lookup_alter_eq, Hold.
    + done.
    + intros b Hb. by rewrite list_lookup_alter_ne.
  - rewrite (getCompilerApi_unfold_miss _ _ _ Hget). cbn [fst snd compilers compilerCache].
    split; [|split; [|split]].
    + intros e' He'. cbn [compilerCache compilers] in *.
      rewrite length_app. cbn [length].
      destruct (decide (key e' = contextToAppId context)) as [Hk|Hk].
      * apply set_stamp in He'; [|done]. subst e'. cbn. lia.
      * rewrite entries_set in He'. apply elem_of_take in He' as (i & Hi & _).
        destruct i as [|i]; [injection Hi as <-; by cbn in Hk|].
        cbn in Hi. apply list_elem_of_lookup_2 in Hi. unfold remove in Hi.
        apply list_elem_of_filter in Hi as [_ Hi]. apply Hok in Hi. lia.
    + done.
    + intros _. by apply list_lookup_middle.
    + intros b Hb. destruct (decide (b < length (compilers s))) as [Hlt|Hge].
      * by rewrite lookup_app_l.
      * rewrite !lookup_ge_None_2; [done | lia |].
        rewrite length_app. cbn. lia.
Qed.

End CompilerHeapFacts.

(** Two requests of tenant "acme" with different users. *)
Lemma X9_getCompilerApi_rebinds_schemaVersion_witness :
  let tenant := λ ctx : string * nat, ctx.1 in
  let s0 := Core.create (Core.mkOptions None None None true) in
  let r1 := Core.getCompilerApi tenant ("acme", 1) 0%Z s0 in
  let r2 := Core.getCompilerApi tenant ("acme", 2) 5%Z r1.2 in
  r2.1 = 0
  ∧ Core.compilers r2.2 !! 0 = Some (Core.mkCompilerApi ("acme", 1) (Some ("acme", 2))).
Proof.
  pose proof (X9_getCompilerApi_rebinds_schemaVersion (λ ctx : string * nat, ctx.1)
                ("acme", 2) 5%Z
                (Core.getCompilerApi (λ ctx : string * nat, ctx.1) ("acme", 1) 0%Z
                   (Core.create (Core.mkOptions None None None true))).2) as H.
  destruct H as (_ & H2 & _).
  - intros e He. vm_compute in He. apply list_elem_of_singleton in He. subst e.
    vm_compute. lia.
  - destruct (H2 0 eq_refl) as (old & Hold & H1 & Hnew).
    injection Hold as <-. exact (conj H1 Hnew).
Defined.

(** ** Reset and shutdown *)

Section ServerFacts.
Import Core Timer Server.
Context {Ctx : Type}.
Variable contextToAppId : Ctx → string.
Variable contextToOrchestratorId : Ctx → string.
Variable formatDuration : Z → string.

Local Abbreviation reset := (Server.resetInstanceState (Ctx:=Ctx) formatDuration).
Local Abbreviation start := (startScheduledRefreshTimer formatDuration).

(** A call leaves an existing interval alone. *)
Lemma start_keeps_interval t iv :
  scheduledRefreshTimerInterval t = Some iv →
  scheduledRefreshTimerInterval (start t).2 = Some iv
  ∧ intervals_created (start t).2 = intervals_created t.
Proof.
  intros Hi. unfold startScheduledRefreshTimer.
  destruct (isReadyForQueryProcessing t); cbn; [|done]. by rewrite Hi.
Qed.

(** X10: [resetInstanceState] forgets every cached object: afterwards
    [getOrchestratorApi] returns, for any context, a new instance with
    empty acquisition slots, and [getCompilerApi] creates a new
    [CompilerApi].  An existing refresh interval is kept and none is
    added; an instance that had no database type but finds one in the
    environment takes it over and starts the refresh timer. *)
Theorem X10_resetInstanceState_forgets_instances (s : Server.state Ctx) :
  let s' := reset s in
  (∀ ctx,
     let r := Core.getOrchestratorApi contextToOrchestratorId ctx (core s') in
     r.1 = length (orchestrators (core s))
     ∧ orchestrators r.2 !! r.1 = Some Broker.init)
  ∧ (∀ ctx now,
       let r := Core.getCompilerApi contextToAppId ctx now (core s') in
       r.1 = length (compilers (core s))
       ∧ length (compilers r.2) = S (length (compilers (core s))))
  ∧ (∀ iv, scheduledRefreshTimerInterval (timer s) = Some iv →
       scheduledRefreshTimerInterval (timer s') = Some iv
       ∧ intervals_created (timer s') = intervals_created (timer s))
  ∧ (∀ t p, truthy_dbType (options_dbType (timer s)) = false →
       env_CUBEJS_DB_TYPE (timer s) = Some t →
       scheduledRefreshTimerInterval (timer s) = None →
       detectScheduledRefreshTimer (options_scheduledRefreshTimer (timer s)) = Some p →
       options_dbType (timer s') = Some (DbName t)
       ∧ scheduledRefreshTimerInterval (timer s') = Some (new_interval formatDuration p)).
Proof.
  cbv zeta. split; [|split; [|split]].
  - intros ctx. unfold Core.getOrchestratorApi, resetInstanceState.
    cbn [core orchestratorStorage orchestrators]. rewrite lookup_empty.
    cbn [fst snd orchestrators]. split; [done|]. by apply list_lookup_middle.
  - intros ctx now.
    assert (Hmiss : (LRU.get (contextToAppId ctx) now
                       (compilerCache (core (reset s)))).1 = None) by reflexivity.
    destruct (getCompilerApi_miss contextToAppId ctx now _ Hmiss) as (H1 & H2 & _).
    by rewrite H1, H2.
  - intros iv Hi. unfold resetInstanceState. cbn [timer].
    exact (start_keeps_interval (reloadEnvVariables (timer s)) iv Hi).
  - intros t p Hd He Hi Hp. unfold resetInstanceState. cbn [timer].
    assert (Hr : isReadyForQueryProcessing (reloadEnvVariables (timer s)) = true).
    { rewrite ready_reload. unfold isReadyForQueryProcessing, dbType_or_env.
      by rewrite Hd, He. }
    rewrite (start_creates formatDuration _ p Hr Hi Hp). cbn.
    unfold dbType_or_env. by rewrite Hd, He.
Qed.

(** X11: [releaseConnections] and [beforeShutdown] cancel the refresh
    interval but leave it in [scheduledRefreshTimerInterval].  So on a
    ready instance a later [startScheduledRefreshTimer] answers
    [[true, null]] and a later [resetInstanceState] keeps the cancelled
    interval: no new interval is created. *)
Theorem X11_cancelled_interval_is_not_replaced (s : Server.state Ctx)
    (iv : CancelableInterval) :
  scheduledRefreshTimerInterval (timer s) = Some iv →
  isReadyForQueryProcessing (timer s) = true →
  let s1 := Server.releaseConnections s in
  last (calls s1) = Some (Cancel false)
  ∧ last (calls (Server.beforeShutdown s)) = Some (Cancel true)
  ∧ start (timer s1) = ((true, None), timer s1)
  ∧ scheduledRefreshTimerInterval (timer (reset s1)) = Some iv
  ∧ intervals_created (timer (reset s1)) = intervals_created (timer s).
Proof.
  intros Hi Hr. cbv zeta.
  unfold Server.releaseConnections, Server.beforeShutdown, record, stop_timers.
  cbn [calls timer]. rewrite Hi.
  split; [|split; [|split]].
  - rewrite app_comm_cons, !app_assoc. apply last_snoc.
  - rewrite !app_assoc. apply last_snoc.
  - by apply (start_existing formatDuration _ iv).
  - unfold resetInstanceState. cbn [timer].
    exact (start_keeps_interval (reloadEnvVariables (timer s)) iv Hi).
Qed.

End ServerFacts.

Lemma X10_resetInstanceState_forgets_instances_witness :
  let tenant := λ ctx : string * nat, ctx.1 in
  let c0 := Core.create (Core.mkOptions None None None false) in
  let c1 := (Core.getOrchestratorApi tenant ("acme", 1) c0).2 in
  let t0 := Timer.construct Samples.millis None None (Some (Timer.TimerBool true)) in
  let t1 := Timer.mkState None (Some "postgres") (Some (Timer.TimerBool true)) None 0 in
  let s' := Server.resetInstanceState Samples.millis (Server.mkState c1 t1 None []) in
  (Core.getOrchestratorApi tenant ("acme", 2) (Server.core s')).1 = 1
  ∧ Timer.options_dbType (Server.timer s') = Some (Timer.DbName "postgres")
  ∧ Timer.scheduledRefreshTimerInterval (Server.timer s')
    = Some (Timer.new_interval Samples.millis 30000%Z).
Proof.
  pose proof (X10_resetInstanceState_forgets_instances
                (λ ctx : string * nat, ctx.1) (λ ctx : string * nat, ctx.1)
                Samples.millis
                (Server.mkState
                   (Core.getOrchestratorApi (λ ctx : string * nat, ctx.1) ("acme", 1)
                      (Core.create (Core.mkOptions None None None false))).2
                   (Timer.mkState None (Some "postgres")
                      (Some (Timer.TimerBool true)) None 0) None []))
    as (H1 & _ & _ & H4).
  destruct (H4 "postgres" 30000%Z eq_refl eq_refl eq_refl eq_refl) as [Ha Hb].
  exact (conj (proj1 (H1 ("acme", 2))) (conj Ha Hb)).
Defined.

Lemma X11_cancelled_interval_is_not_replaced_witness :
  let t := Timer.construct Samples.millis (Some (Timer.DbName "postgres")) None
             (Some (Timer.seconds 5 eq_refl)) in
  let s := Server.mkState (Core.create (Core.mkOptions None (Some 1000%N) None false))
             t (Some 1000%N) [] in
  Server.calls (Server.releaseConnections (Ctx:=unit) s)
    = [Server.ReleaseStorage; Server.ClearInterval; Server.Cancel false]
  ∧ Timer.intervals_created
      (Server.timer (Server.resetInstanceState Samples.millis
                       (Server.releaseConnections s))) = 1.
Proof.
  destruct (X11_cancelled_interval_is_not_replaced (Ctx:=unit) Samples.millis
              (Server.mkState (Core.create (Core.mkOptions None (Some 1000%N) None false))
                 (Timer.construct Samples.millis (Some (Timer.DbName "postgres")) None
                    (Some (Timer.seconds 5 eq_refl)))
                 (Some 1000%N) [])
              (Timer.new_interval Samples.millis 5000%Z) eq_refl eq_refl)
    as (_ & _ & _ & _ & H5).
  exact (conj eq_refl H5).
Defined.

(** ** More on the refresh timer *)

Section TimerOptionFacts.
Import Timer.
Variable formatDuration : Z → string.

Local Abbreviation start := (startScheduledRefreshTimer formatDuration).

Lemma detect_nonzero t p : detectScheduledRefreshTimer t = Some p → p ≠ 0%Z.
Proof.
  unfold detectScheduledRefreshTimer.
  destruct t as [[[n|[] d]|[]]|]; cbn; try discriminate.
  - case_bool_decide; [discriminate|]. cbn. intros [= <-]. lia.
  - intros [= <-]. lia.
  - intros [= <-]. lia.
  - by intros [= <-].
Qed.

Lemma detect_number n :
  detectScheduledRefreshTimer (Some (TimerNumber n)) =
    if truthy_number n then Some (parseInt n * 1000)%Z else None.
Proof. done. Qed.


(** X13: [reloadEnvVariables] is idempotent and changes neither the
    readiness of the instance nor a configured database type: the
    environment's type is taken only when the option is unset (or the
    empty string). *)
Theorem X13_reloadEnvVariables_idempotent (s : Timer.state) :
  reloadEnvVariables (reloadEnvVariables s) = reloadEnvVariables s
  ∧ isReadyForQueryProcessing (reloadEnvVariables s) = isReadyForQueryProcessing s
  ∧ (truthy_dbType (options_dbType s) = true →
       options_dbType (reloadEnvVariables s) = options_dbType s)
  ∧ (truthy_dbType (options_dbType s) = false →
       options_dbType (reloadEnvVariables s) = DbName <$> env_CUBEJS_DB_TYPE s).
Proof.
  split; [|split; [|split]].
  - pose proof (dbType_or_env_reload s) as H.
    unfold reloadEnvVariables at 1 3. cbn. by rewrite H.
  - apply ready_reload.
  - intros H. cbn. unfold dbType_or_env. by rewrite H.
  - intros H. cbn. unfold dbType_or_env. by rewrite H.
Qed.

Lemma X13_reloadEnvVariables_idempotent_witness :
  options_dbType
    (reloadEnvVariables (Timer.mkState (Some (DbName "mysql")) (Some "postgres") None None 0))
  = Some (DbName "mysql")
  ∧ options_dbType
      (reloadEnvVariables (Timer.mkState (Some (DbName "")) (Some "postgres") None None 0))
    = Some (DbName "postgres").
Proof.
  exact (conj
    (proj1 (proj2 (proj2 (X13_reloadEnvVariables_idempotent
       (Timer.mkState (Some (DbName "mysql")) (Some "postgres") None None 0)))) eq_refl)
    (proj2 (proj2 (proj2 (X13_reloadEnvVariables_idempotent
       (Timer.mkState (Some (DbName "")) (Some "postgres") None None 0)))) eq_refl)).
Defined.

End TimerOptionFacts.


(** ** The scheduled refresh of all contexts *)

Section RefreshFacts.
Import Context Refresh.

Lemma migrate_result_independent ctx s s' :
  (migrateBackgroundContext ctx s).1 = (migrateBackgroundContext ctx s').1.
Proof.
  unfold migrateBackgroundContext. destruct ctx as [c|]; [|done].
  destruct (truthy (securityContext c) && negb (truthy (authInfo c))); [done|].
  by destruct (truthy (authInfo c)).
Qed.

Lemma migrateAll_results ctxs s :
  (migrateAll ctxs s).1 = (λ c, (migrateBackgroundContext c init).1) <$> ctxs.
Proof.
  revert s. induction ctxs as [|c cs IH]; intros s; [done|].
  cbn [migrateAll fmap list_fmap].
  pose proof (migrate_result_independent c s init) as Hc.
  destruct (migrateBackgroundContext c s) as [r s1]. cbn [fst] in Hc.
  specialize (IH s1). destruct (migrateAll cs s1) as [rs s2]. cbn [fst] in *.
  by rewrite Hc, IH.
Qed.

(** X14: [handleScheduledRefreshInterval] starts exactly one refresh
    run per context, in the order of the contexts, each with the
    migrated context; every run receives the configured concurrency in
    place of the caller's, the configured time zones when there are any
    and the caller's otherwise.  For an empty list it starts no run and
    logs "Refresh Scheduler Error" once; for a non-empty list it does
    not log that error. *)
Theorem X14_handleScheduledRefreshInterval_runs (cfg : Refresh.config)
    (options : ScheduledRefreshOptions)
    (contexts : list (option UserBackgroundContext)) (s : Context.state) :
  let r := handleScheduledRefreshInterval cfg options contexts s in
  r.1 = (λ c, ((migrateBackgroundContext c init).1, queryingOptions cfg options))
          <$> contexts
  ∧ length r.1 = length contexts
  ∧ (∀ c o, (c, o) ∈ r.1 →
       concurrency o = scheduledRefreshConcurrency cfg
       ∧ timezones o = match scheduledRefreshTimeZones cfg with
                       | Some tz => Some tz
                       | None => timezones options
                       end)
  ∧ (contexts = [] → r.1 = [] ∧ logged r.2 = logged s ++ [refresh_error])
  ∧ (contexts ≠ [] → r.2 = (migrateAll contexts s).2).
Proof.
  cbv zeta. unfold handleScheduledRefreshInterval.
  assert (Hruns : ∀ s0,
    (let '(migrated, s1) := migrateAll contexts s0 in
     ((λ c, (c, queryingOptions cfg options)) <$> migrated, s1)).1
    = (λ c, ((migrateBackgroundContext c init).1, queryingOptions cfg options))
        <$> contexts).
  { intros s0. pose proof (migrateAll_results contexts s0) as H.
    destruct (migrateAll contexts s0) as [m s1]. cbn [fst] in *.
    rewrite H. by rewrite <- list_fmap_compose. }
  split; [apply Hruns|]. split; [by rewrite Hruns, length_fmap|].
  split; [|split].
  - intros c o Hin. rewrite Hruns in Hin.
    apply list_elem_of_fmap in Hin as (c0 & [= -> ->] & _). done.
  - intros ->. done.
  - intros Hne. destruct contexts as [|c cs]; [done|].
    rewrite bool_decide_eq_false_2 by (cbn; lia).
    by destruct (migrateAll (c :: cs) s).
Qed.

Lemma X14_handleScheduledRefreshInterval_runs_witness :
  let cfg := Refresh.mkConfig (Some 4) None in
  let options := Refresh.mkOptions (Some 1) (Some ["UTC"]) ∅ in
  (handleScheduledRefreshInterval cfg options [] init).2
    = Context.mkState false [refresh_error]
  ∧ (handleScheduledRefreshInterval cfg options [None] init)
    = ([(None, Refresh.mkOptions (Some 4) (Some ["UTC"]) ∅)], init).
Proof.
  pose proof (X14_handleScheduledRefreshInterval_runs (Refresh.mkConfig (Some 4) None)
                (Refresh.mkOptions (Some 1) (Some ["UTC"]) ∅) [] init)
    as (_ & _ & _ & H4 & _).
  pose proof (X14_handleScheduledRefreshInterval_runs (Refresh.mkConfig (Some 4) None)
                (Refresh.mkOptions (Some 1) (Some ["UTC"]) ∅) [None] init)
    as (H1 & _ & _ & _ & H5).
  destruct (H4 eq_refl) as [_ Hl]. split.
  - destruct (handleScheduledRefreshInterval _ _ [] init).2 as [w l] eqn:E.
    cbn in Hl. subst l. f_equal.
    change w with (warningBackgroundContextShow (Context.mkState w [refresh_error])).
    rewrite <- E. reflexivity.
  - specialize (H5 ltac:(discriminate)). cbv zeta in H1.
    destruct (handleScheduledRefreshInterval _ _ [None] init) as [runs st].
    cbn [fst snd] in *. by subst.
Defined.

End RefreshFacts.

(** ** External database type *)

Section ConfigFacts.
Import Config.

Lemma defined_nonempty env :
  0 < length (definedExtDBVariables env) ↔
  ∃ f, f ∈ skipOnEnv ∧ is_Some (env !! f).
Proof.
  unfold definedExtDBVariables. split.
  - intros H. destruct (filter _ skipOnEnv) as [|f l] eqn:E; [cbn in H; lia|].
    exists f. assert (Hf : f ∈ filter (λ field, is_Some (env !! field)) skipOnEnv)
      by (rewrite E; left).
    apply list_elem_of_filter in Hf. tauto.
  - intros (f & Hin & Hs).
    assert (f ∈ filter (λ field, is_Some (env !! field)) skipOnEnv) as Hf
      by (by apply list_elem_of_filter).
    destruct (filter _ skipOnEnv); [by apply elem_of_nil in Hf | cbn; lia].
Qed.

(** X15: the external database type chosen by [handleConfiguration].
    An explicit option wins, then a non-empty [CUBEJS_EXT_DB_TYPE];
    otherwise the type is "cubestore" exactly when dev mode is on or one
    of the ten external-database variables is defined (an empty value
    counts), and undefined when neither holds.  The local Cube Store
    process is considered only when none of those variables is defined,
    so defining any of them switches it off. *)
Theorem X15_externalDbType_default (opt : option Timer.DbType)
    (env : gmap string string) (devMode serverless supported : bool) :
  (Timer.truthy_dbType opt = true → externalDbType opt env devMode = opt)
  ∧ (Timer.truthy_dbType opt = false →
     ∀ t, env !! "CUBEJS_EXT_DB_TYPE" = Some t → t ≠ "" →
          externalDbType opt env devMode = Some (Timer.DbName t))
  ∧ (Timer.truthy_dbType opt = false →
     Drivers.truthy_str (env !! "CUBEJS_EXT_DB_TYPE") = false →
     (externalDbType opt env devMode = Some (Timer.DbName "cubestore") ↔
        devMode = true ∨ ∃ f, f ∈ skipOnEnv ∧ is_Some (env !! f))
     ∧ (externalDbType opt env devMode = None ↔
          devMode = false ∧ ∀ f, f ∈ skipOnEnv → env !! f = None))
  ∧ (startsCubeStoreHandler opt env devMode serverless supported = true →
       ∀ f, f ∈ skipOnEnv → env !! f = None)
  ∧ (∀ f v, f ∈ skipOnEnv →
       startsCubeStoreHandler opt (<[f := v]> env) devMode serverless supported = false).
Proof.
  split; [|split; [|split; [|split]]].
  - unfold externalDbType. by intros ->.
  - unfold externalDbType. intros -> t Ht Hne. rewrite Ht. cbn.
    by rewrite bool_decide_eq_false_2.
  - unfold externalDbType. intros -> ->.
    destruct devMode; cbn [orb].
    + split; [split; [by left | done]|]. split; [discriminate | by intros [? _]].
    + case_bool_decide as Hd.
      * apply defined_nonempty in Hd. split; [split; [by right | done]|].
        split; [discriminate|]. intros [_ Hnone].
        destruct Hd as (f & Hin & [v Hv]). rewrite (Hnone f Hin) in Hv. discriminate.
      * split; [split; [discriminate|]|].
        -- intros [?|Hex]; [discriminate|]. by apply defined_nonempty in Hex.
        -- split; [|done]. intros _. split; [done|]. intros f Hin.
           destruct (env !! f) eqn:Hf; [|done]. exfalso. apply Hd.
           apply defined_nonempty. exists f. by rewrite Hf.
  - unfold startsCubeStoreHandler. rewrite !andb_true_iff.
    intros [[_ Hlen] _]. apply bool_decide_eq_true in Hlen.
    intros f Hin. destruct (env !! f) eqn:Hf; [|done]. exfalso.
    assert (0 < length (definedExtDBVariables env)); [|lia].
    apply defined_nonempty. exists f. by rewrite Hf.
  - intros f v Hin. unfold startsCubeStoreHandler.
    assert (Hpos : 0 < length (definedExtDBVariables (<[f := v]> env))).
    { apply defined_nonempty. exists f. by rewrite lookup_insert_eq. }
    rewrite (bool_decide_eq_false_2 (length _ = 0)) by lia.
    by rewrite andb_false_r.
Qed.

Lemma X15_externalDbType_default_witness :
  externalDbType None ∅ true = Some (Timer.DbName "cubestore")
  ∧ externalDbType None (<["CUBEJS_CUBESTORE_HOST" := ""]> ∅) false
    = Some (Timer.DbName "cubestore")
  ∧ externalDbType None (<["CUBEJS_EXT_DB_TYPE" := "mysql"]> ∅) true
    = Some (Timer.DbName "mysql")
  ∧ startsCubeStoreHandler None (<["CUBEJS_CUBESTORE_HOST" := ""]> ∅) true false true
    = false.
Proof.
  pose proof (X15_externalDbType_default None ∅ true false true) as (_ & _ & H3 & _).
  pose proof (X15_externalDbType_default None (<["CUBEJS_CUBESTORE_HOST" := ""]> ∅)
                false false true) as (_ & _ & H3' & _).
  pose proof (X15_externalDbType_default None (<["CUBEJS_EXT_DB_TYPE" := "mysql"]> ∅)
                true false true) as (_ & H2 & _).
  pose proof (X15_externalDbType_default None ∅ true false true) as (_ & _ & _ & _ & H5).
  split; [|split; [|split]].
  - apply (H3 eq_refl eq_refl). by left.
  - apply (H3' eq_refl eq_refl). right. exists "CUBEJS_CUBESTORE_HOST".
    split; [apply list_elem_of_In; simpl; tauto | by eexists].
  - apply (H2 eq_refl "mysql" eq_refl). discriminate.
  - apply H5. apply list_elem_of_In; simpl; tauto.
Defined.

End ConfigFacts.
